(** * reformat_java.py: the single-line Java reformatter

    A shallow embedding of [reformat_java_file] (src/reformat_java.py), of
    the script around it, and of the Python primitives they are built from
    ([str.strip], [str.split], [str.replace], [str.join], [re.sub] with the
    compilation of its patterns, [f.read], [f.readlines], [open]), followed by
    the properties of the transform and of the script.  An exception is the
    result [None].

    A Python [str] is a sequence of Unicode code points; a code point is
    modelled as an [N], a text as a list of them. *)

From Stdlib Require Import NArith ZArith List Bool Lia String Ascii.
From stdpp Require Import base option list gmap strings.
Import ListNotations.

Local Open Scope N_scope.

(** ** Characters and texts *)

Abbreviation char := N (only parsing).
Abbreviation text := (list N) (only parsing).

(** A Rocq string literal read as a Python text (ASCII only). *)
Definition str (s : string) : text :=
  map N_of_ascii (list_ascii_of_string s).

Definition nl : char := 10.        (* '\n' *)
Definition sp : char := 32.        (* ' '  *)
Definition lbrace : char := 123.   (* '{'  *)
Definition rbrace : char := 125.   (* '}'  *)
Definition semi : char := 59.      (* ';'  *)
Definition underscore : char := 95. (* '_' *)

(** [str.isspace] on one code point, which is also the regex class [\s] of a
    str pattern: CPython's [_Py_ascii_whitespace] below 128 and
    [_PyUnicode_IsWhitespace] above. *)
Definition isspace (c : char) : bool :=
  ((9 <=? c) && (c <=? 13))            (* \t \n \v \f \r *)
  || ((28 <=? c) && (c <=? 32))        (* FS GS RS US and the space *)
  || (c =? 133) || (c =? 160)          (* NEL, no-break space *)
  || (c =? 5760)                       (* U+1680 *)
  || ((8192 <=? c) && (c <=? 8202))    (* U+2000 .. U+200A *)
  || (c =? 8232) || (c =? 8233)        (* U+2028, U+2029 *)
  || (c =? 8239) || (c =? 8287)        (* U+202F, U+205F *)
  || (c =? 12288).                     (* U+3000 *)

(** The ASCII letters and digits. *)
Definition ascii_alnum (c : char) : bool :=
  ((48 <=? c) && (c <=? 57))
  || ((65 <=? c) && (c <=? 90))
  || ((97 <=? c) && (c <=? 122)).

(** ** Python string primitives *)

Fixpoint lstrip (s : text) : text :=
  match s with
  | c :: s' => if isspace c then lstrip s' else s
  | [] => []
  end.

Definition rstrip (s : text) : text := rev (lstrip (rev s)).

(** [s.strip()] *)
Definition strip (s : text) : text := rstrip (lstrip s).

(** [s.split(sep)] for a one-character separator: always at least one piece. *)
Fixpoint split (sep : char) (s : text) : list text :=
  match s with
  | [] => [[]]
  | c :: s' =>
      if c =? sep then [] :: split sep s'
      else match split sep s' with
           | l :: ls => (c :: l) :: ls
           | [] => [[c]]
           end
  end.

(** [sep.join(pieces)] for a one-character separator. *)
Fixpoint join (sep : char) (pieces : list text) : text :=
  match pieces with
  | [] => []
  | [l] => l
  | l :: ls => l ++ sep :: join sep ls
  end.

(** [s.replace(a, b)] for one-character [a] and [b]. *)
Definition replace (a b : char) (s : text) : text :=
  map (fun c => if c =? a then b else c) s.

(** [c in s] *)
Definition contains (c : char) (s : text) : bool := existsb (N.eqb c) s.

(** [s.startswith(c)] and [s.endswith(c)] for a one-character [c]. *)
Definition startswith (c : char) (s : text) : bool :=
  match s with
  | x :: _ => x =? c
  | [] => false
  end.

Definition endswith (c : char) (s : text) : bool :=
  match rev s with
  | x :: _ => x =? c
  | [] => false
  end.

(** [s * n]: a negative count gives the empty text. *)
Definition str_mul (s : text) (n : Z) : text :=
  concat (repeat s (Z.to_nat n)).

(** [s.count(c)] *)
Definition count (c : char) (s : text) : nat :=
  List.length (List.filter (N.eqb c) s).

(** ** The regular expressions of the pattern table

    Only the constructs the source's patterns use.  A pattern is a sequence of
    atoms, matched by backtracking with Python's priorities (greedy repeats,
    first success wins). *)

Inductive atom : Type :=
| Lit (l : text)                    (* literal characters *)
| WordB                             (* \b *)
| Spaces1                           (* \s+ *)
| NotAhead (alts : list text)       (* (?!a|b|c) with literal alternatives *)
| Newlines (n : nat).               (* \n{n,} *)

Abbreviation regex := (list atom) (only parsing).

(** ** Compiling a pattern and parsing a replacement

    [re.sub(pattern, repl, string)] compiles [pattern] and parses [repl]
    before it scans [string], and raises [re.error] when one of them is
    malformed.  The compiler below reads the constructs above from the
    pattern's characters; [None] stands for the exception, and also for a
    construct the fragment does not have. *)

Definition ch (a : ascii) : char := N_of_ascii a.

Definition backslash : char := 92.  (* '\' *)

(** The characters with a meaning of their own in a pattern. *)
Definition metachar (c : char) : bool :=
  existsb (N.eqb c) (str ".^$*+?{}[]|()") || (c =? backslash).

Definition digit (c : char) : bool := (48 <=? c) && (c <=? 57).

Inductive token : Type :=
| TChar (c : char)        (* a literal character, escaped or not *)
| TWordB                  (* \b *)
| TSpaces1                (* \s+ *)
| TNewlines (n : nat)     (* \n{n,} *)
| TAhead                  (* (?! *)
| TBar                    (* | *)
| TClose.                 (* ) *)

Fixpoint lex (s : text) : option (list token) :=
  match s with
  | [] => Some []
  | c :: s1 =>
      if c =? backslash then
        match s1 with
        | [] => None                                  (* bad escape *)
        | e :: s2 =>
            if e =? ch "b" then option_map (cons TWordB) (lex s2)
            else if e =? ch "s" then
              match s2 with
              | q :: s3 =>
                  if q =? ch "+" then option_map (cons TSpaces1) (lex s3)
                  else None
              | [] => None
              end
            else if e =? ch "n" then
              match s2 with
              | o :: d :: m :: k :: s3 =>
                  if (o =? ch "{") && digit d && (m =? ch ",") && (k =? ch "}")
                  then option_map (cons (TNewlines (N.to_nat (d - 48)))) (lex s3)
                  else if metachar o then None
                  else option_map (cons (TChar nl)) (lex s2)
              | o :: _ =>
                  if metachar o then None
                  else option_map (cons (TChar nl)) (lex s2)
              | [] => Some [TChar nl]
              end
            else if (e <? 128) && ascii_alnum e then None (* other escapes *)
            else option_map (cons (TChar e)) (lex s2)  (* escaped punctuation *)
        end
      else if c =? ch "(" then
        match s1 with
        | q :: b :: s3 =>
            if (q =? ch "?") && (b =? ch "!")
            then option_map (cons TAhead) (lex s3)
            else None
        | _ => None
        end
      else if c =? ch "|" then option_map (cons TBar) (lex s1)
      else if c =? ch ")" then option_map (cons TClose) (lex s1)
      else if metachar c then None
      else option_map (cons (TChar c)) (lex s1)
  end.

(** A literal character joins the literal before it. *)
Definition add_lit (acc : regex) (c : char) : regex :=
  match rev acc with
  | Lit l :: r => rev r ++ [Lit (l ++ [c])]
  | _ => acc ++ [Lit [c]]
  end.

(** Where the parser is: in the sequence, or in the alternatives of a
    lookahead. *)
Inductive parse_mode : Type :=
| InSequence
| InAhead (alts : list text) (cur : text).

Fixpoint parse (m : parse_mode) (acc : regex) (ts : list token)
  : option regex :=
  match ts, m with
  | [], InSequence => Some acc
  | [], InAhead _ _ => None                           (* missing ) *)
  | TChar c :: ts', InSequence => parse InSequence (add_lit acc c) ts'
  | TWordB :: ts', InSequence => parse InSequence (acc ++ [WordB]) ts'
  | TSpaces1 :: ts', InSequence => parse InSequence (acc ++ [Spaces1]) ts'
  | TNewlines n :: ts', InSequence =>
      parse InSequence (acc ++ [Newlines n]) ts'
  | TAhead :: ts', InSequence => parse (InAhead [] []) acc ts'
  | TChar c :: ts', InAhead alts cur => parse (InAhead alts (cur ++ [c])) acc ts'
  | TBar :: ts', InAhead alts cur => parse (InAhead (alts ++ [cur]) []) acc ts'
  | TClose :: ts', InAhead alts cur =>
      parse InSequence (acc ++ [NotAhead (alts ++ [cur])]) ts'
  | _, _ => None
  end.

(** [re.compile(pattern)] *)
Definition compile (pattern : string) : option regex :=
  match lex (str pattern) with
  | Some ts => parse InSequence [] ts
  | None => None
  end.

(** The replacement of [re.sub]: a text without backslash stands for
    itself (with one it would hold escapes or group references). *)
Definition parse_template (repl : text) : option text :=
  if contains backslash repl then None else Some repl.

(** A pattern that matches the empty text. *)
Definition nullable_atom (a : atom) : bool :=
  match a with
  | Lit l => match l with [] => true | _ :: _ => false end
  | WordB => true
  | Spaces1 => false
  | NotAhead _ => true
  | Newlines n => match n with O => true | S _ => false end
  end.

Definition nullable (r : regex) : bool := forallb nullable_atom r.

(** ** Files

    A file as the script meets it: the text [f.read()] decodes from it
    ([None] when its bytes do not decode), and whether it can be opened for
    writing. *)
Record disk_file : Type := DiskFile {
  decoded : option (list N);
  writable : bool
}.

Section Regex.

(** [Py_UNICODE_ISALNUM] on the code points from 128 on.  The table belongs
    to the Python runtime; the transform is verified for every such table. *)
Variable uni_alnum : char -> bool.

(** The regex class [\w] of a str pattern: alphanumeric or the underscore. *)
Definition isword (c : char) : bool :=
  (if c <? 128 then ascii_alnum c else uni_alnum c) || (c =? underscore).

Definition isword_opt (o : option char) : bool :=
  match o with
  | Some c => isword c
  | None => false
  end.

(** [\b] between the character before the position ([None] at the start of
    the string) and the character at it ([None] at the end). *)
Definition at_boundary (prev next : option char) : bool :=
  xorb (isword_opt prev) (isword_opt next).

(** [s] with the prefix [l] removed, when [l] is a prefix of [s]. *)
Fixpoint strip_prefix (l s : text) : option text :=
  match l, s with
  | [], _ => Some s
  | a :: l', c :: s' => if a =? c then strip_prefix l' s' else None
  | _ :: _, [] => None
  end.

Definition has_prefix (l s : text) : bool :=
  match strip_prefix l s with
  | Some _ => true
  | None => false
  end.

Definition last_or (prev : option char) (l : text) : option char :=
  match rev l with
  | c :: _ => Some c
  | [] => prev
  end.

(** A continuation takes the character before the current position and the
    rest of the subject, and returns the number of characters the rest of the
    pattern consumes. *)
Definition cont : Type := option char -> text -> option nat.

(** [p*] followed by [k]: as many as possible first, then one fewer, ... *)
Fixpoint greedy (p : char -> bool) (k : cont) (prev : option char) (s : text)
  : option nat :=
  match s with
  | c :: s' =>
      if p c then
        match greedy p k (Some c) s' with
        | Some n => Some (S n)
        | None => k prev s
        end
      else k prev s
  | [] => k prev s
  end.

(** [n] mandatory characters of class [p], then [p*], then [k]. *)
Fixpoint at_least (n : nat) (p : char -> bool) (k : cont)
  (prev : option char) (s : text) : option nat :=
  match n with
  | O => greedy p k prev s
  | S n' =>
      match s with
      | c :: s' =>
          if p c then option_map S (at_least n' p k (Some c) s') else None
      | [] => None
      end
  end.

Fixpoint match_here (r : regex) : cont :=
  match r with
  | [] => fun _ _ => Some O
  | a :: r' =>
      let k := match_here r' in
      match a with
      | Lit l => fun prev s =>
          match strip_prefix l s with
          | Some s' => option_map (Nat.add (List.length l)) (k (last_or prev l) s')
          | None => None
          end
      | WordB => fun prev s =>
          if at_boundary prev (head s) then k prev s else None
      | Spaces1 => at_least 1 isspace k
      | NotAhead alts => fun prev s =>
          if existsb (fun l => has_prefix l s) alts then None else k prev s
      | Newlines n => at_least n (N.eqb nl) k
      end
  end.

(** [re.sub(r, repl, s)] for a pattern that matches no empty string and a
    replacement without group references: scan from the left; at the first
    position where the pattern matches, emit [repl] and resume right after the
    match; elsewhere copy the character.  [skip] counts the characters of the
    current match still to be passed over, [prev] is the character before the
    position.  (A match of length 0, which no pattern of the table has, is
    treated as no match.) *)
Fixpoint sub_from (r : regex) (repl : text) (skip : nat) (prev : option char)
  (s : text) : text :=
  match s with
  | [] => []
  | c :: s' =>
      match skip with
      | S k => sub_from r repl k (Some c) s'
      | O =>
          match match_here r prev s with
          | Some (S n) => repl ++ sub_from r repl n (Some c) s'
          | _ => c :: sub_from r repl O (Some c) s'
          end
      end
  end.

Definition re_sub (r : regex) (repl s : text) : text :=
  sub_from r repl O None s.

(** ** reformat_java_file *)

(** The [replacements] table, in the source's order. *)
Definition replacements : list (regex * text) :=
  [ ([WordB; Lit (str "package"); Spaces1], nl :: str "package ");
    ([WordB; Lit (str "import"); Spaces1], nl :: str "import ");
    ([WordB; Lit (str "public"); Spaces1; Lit (str "class"); Spaces1],
       nl :: nl :: str "public class ");
    ([WordB; Lit (str "public"); Spaces1; Lit (str "interface"); Spaces1],
       nl :: nl :: str "public interface ");
    ([WordB; Lit (str "public"); Spaces1; Lit (str "enum"); Spaces1],
       nl :: nl :: str "public enum ");
    ([WordB; Lit (str "class"); Spaces1], nl :: str "class ");
    ([WordB; Lit (str "interface"); Spaces1], nl :: str "interface ");
    ([WordB; Lit (str "enum"); Spaces1], nl :: str "enum ");
    ([Lit [lbrace]], str " {" ++ [nl]);
    ([Lit [rbrace]], nl :: str "}" ++ [nl]);
    ([Lit [semi]], str ";" ++ [nl]);
    ([WordB; Lit (str "private"); Spaces1], nl :: str "    private ");
    ([WordB; Lit (str "protected"); Spaces1], nl :: str "    protected ");
    ([WordB; Lit (str "public"); Spaces1;
      NotAhead [str "class"; str "interface"; str "enum"]],
       nl :: str "    public ");
    ([WordB; Lit (str "static"); Spaces1], str "static ");
    ([WordB; Lit (str "final"); Spaces1], str "final ") ].

(** [for pattern, replacement in replacements: content = re.sub(...)] *)
Definition apply_replacements (rules : list (regex * text)) (content : text)
  : text :=
  fold_left (fun c pr => re_sub (fst pr) (snd pr) c) rules content.

(** The state of the indentation loop: [formatted_lines] and [indent_level]
    (a Python int, hence a [Z]). *)
Definition indent_state : Type := (list text * Z)%type.

(** One iteration of [for line in lines]. *)
Definition indent_step (st : indent_state) (line : text) : indent_state :=
  let '(formatted_lines, indent_level) := st in
  let line := strip line in
  match line with
  | [] => st                                            (* continue *)
  | _ :: _ =>
      let indent_level :=
        if startswith rbrace line then Z.max 0 (indent_level - 1)
        else indent_level in
      let formatted_lines :=
        formatted_lines ++ [str_mul (str "    ") indent_level ++ line] in
      let indent_level :=
        if endswith lbrace line then (indent_level + 1)%Z else indent_level in
      (formatted_lines, indent_level)
  end.

Definition indent_loop (lines : list text) : indent_state :=
  fold_left indent_step lines ([], 0%Z).

(** The skip test on the stripped content. *)
Definition already_formatted (content : text) : bool :=
  contains nl content && (5 <? List.length (split nl content))%nat.

(** Everything between the skip test and the write: the [formatted_lines]
    the loop ends with, for a content that is not skipped. *)
Definition format_lines (content : text) : list text :=
  let content := replace nl sp content in
  let content := apply_replacements replacements content in
  let content := re_sub [Newlines 3] [nl; nl] content in
  let lines := split nl content in
  fst (indent_loop lines).

(** The text written back: ['\n'.join(formatted_lines) + '\n']. *)
Definition format_content (content : text) : text :=
  join nl (format_lines content) ++ [nl].

(** The core contract [reformat(text) -> (output_text, changed)]: the file's
    text before the call, its text after it, and the returned flag. *)
Definition reformat (file_text : text) : text * bool :=
  let content := strip file_text in
  if already_formatted content then (file_text, false)
  else (format_content content, true).

(** [re.sub(pattern, repl, s)] with its failures: the pattern is compiled,
    the replacement parsed, and the scan made with the result.  (A pattern
    that matches the empty text is outside the fragment.) *)
Definition py_re_sub (pattern : string) (repl s : text) : option text :=
  r ← compile pattern;
  template ← parse_template repl;
  if nullable r then None else Some (re_sub r template s).

(** The [replacements] table as the source writes it: the patterns are raw
    strings, compiled at each call. *)
Definition pattern_table : list (string * text) :=
  [ ("\bpackage\s+"%string, nl :: str "package ");
    ("\bimport\s+"%string, nl :: str "import ");
    ("\bpublic\s+class\s+"%string, nl :: nl :: str "public class ");
    ("\bpublic\s+interface\s+"%string, nl :: nl :: str "public interface ");
    ("\bpublic\s+enum\s+"%string, nl :: nl :: str "public enum ");
    ("\bclass\s+"%string, nl :: str "class ");
    ("\binterface\s+"%string, nl :: str "interface ");
    ("\benum\s+"%string, nl :: str "enum ");
    ("\{"%string, str " {" ++ [nl]);
    ("\}"%string, nl :: str "}" ++ [nl]);
    ("\;"%string, str ";" ++ [nl]);
    ("\bprivate\s+"%string, nl :: str "    private ");
    ("\bprotected\s+"%string, nl :: str "    protected ");
    ("\bpublic\s+(?!class|interface|enum)"%string, nl :: str "    public ");
    ("\bstatic\s+"%string, str "static ");
    ("\bfinal\s+"%string, str "final ") ].

(** [for pattern, replacement in replacements: content = re.sub(...)], which
    ends at the first call that raises. *)
Definition sub_all (table : list (string * text)) (content : text)
  : option text :=
  fold_left (fun c pr => c ≫= py_re_sub (fst pr) (snd pr)) table (Some content).

(** The function itself, over a file system that maps a path to the file
    there.  [None] is an exception: of [open(filepath, 'r')] on a path that
    cannot be opened, of [f.read()] on a file that does not decode, of
    [re.sub], or of [open(filepath, 'w')] on a file that cannot be written. *)
Definition reformat_java_file (fs : gmap string disk_file) (filepath : string)
  : option (gmap string disk_file * bool) :=
  f ← fs !! filepath;
  file_text ← decoded f;
  let content := strip file_text in
  if already_formatted content then Some (fs, false)
  else
    let content := replace nl sp content in
    content ← sub_all pattern_table content;
    content ← py_re_sub "\n{3,}" [nl; nl] content;
    let lines := split nl content in
    let formatted_lines := fst (indent_loop lines) in
    if writable f
    then Some (<[filepath := DiskFile (Some (join nl formatted_lines ++ [nl]))
                               true]> fs, true)
    else None.

End Regex.

(** ** The script around the function: find and reformat files *)

(** [f.readlines()]: the lines of the text, each with its newline (the last
    one has none when the text does not end with a newline). *)
Fixpoint readlines (s : text) : list text :=
  match s with
  | [] => []
  | c :: s' =>
      if c =? nl then [nl] :: readlines s'
      else match readlines s' with
           | l :: ls => (c :: l) :: ls
           | [] => [[c]]
           end
  end.

(** [sum(len(line) for line in lines)] *)
Definition sum_len (lines : list text) : nat :=
  fold_left (fun acc line => (acc + List.length line)%nat) lines O.

(** [name.endswith(suffix)] on file names. *)
Definition name_endswith (suffix name : string) : bool :=
  (String.length suffix <=? String.length name)%nat
  && String.eqb
       (String.substring (String.length name - String.length suffix)
          (String.length suffix) name)
       suffix.

(** [os.path.join(a, b)] of posixpath. *)
Definition path_join (a b : string) : string :=
  if String.prefix "/" b then b
  else if String.eqb a "" || name_endswith "/" a then String.append a b
  else String.append a (String.append "/" b).

Section Script.
Variable uni_alnum : char -> bool.

(** The state of the script: the file system and the list [reformatted]. *)
Definition script_state : Type := (gmap string disk_file * list string)%type.

(** The body of the loop for one path ending in [.java]: read its lines,
    and reformat it when it has at most 3 lines and more than 200 characters.
    [None] is an exception, which ends the script: of [open(filepath, 'r')],
    of [f.readlines()] on a file that does not decode, or of
    [reformat_java_file]. *)
Definition visit_path (st : script_state) (filepath : string)
  : option script_state :=
  let '(fs, reformatted) := st in
  f ← fs !! filepath;
  file_text ← decoded f;
  let lines := readlines file_text in
  if (List.length lines <=? 3)%nat then
    let chars := sum_len lines in
    if (200 <? chars)%nat then
      match reformat_java_file uni_alnum fs filepath with
      | None => None
      | Some (fs', true) => Some (fs', reformatted ++ [filepath])
      | Some (fs', false) => Some (fs', reformatted)
      end
    else Some st
  else Some st.

(** [for file in files: if file.endswith('.java'): ...] *)
Definition visit_file (root : string) (st : option script_state)
  (file : string) : option script_state :=
  match st with
  | None => None
  | Some st =>
      if name_endswith ".java" file
      then visit_path st (path_join root file)
      else Some st
  end.

(** [for root, dirs, files in os.walk(...)], over the triples the walk
    yields. *)
Definition main_loop (walk : list (string * list string * list string))
  (fs : gmap string disk_file) : option script_state :=
  fold_left (fun st entry => fold_left (visit_file (fst (fst entry))) (snd entry) st)
    walk (Some (fs, [])).

End Script.

(** ** Vocabulary of the properties *)

(** The text with every whitespace character removed. *)
Definition nonws (s : text) : text :=
  List.filter (fun c => negb (isspace c)) s.

(** Every character of the text is whitespace. *)
Definition all_space (s : text) : Prop :=
  Forall (fun c => isspace c = true) s.

(** The literal characters of a pattern, in order. *)
Fixpoint lits (r : regex) : text :=
  match r with
  | [] => []
  | Lit l :: r' => l ++ lits r'
  | _ :: r' => lits r'
  end.

Definition nonempty (l : text) : bool :=
  match l with
  | [] => false
  | _ :: _ => true
  end.

(** The lines the indentation loop does not skip: trimmed and not empty. *)
Definition logical_lines (lines : list text) : list text :=
  List.filter nonempty (map strip lines).

(** [s] contains [n] consecutive copies of [c]. *)
Definition has_run (c : char) (n : nat) (s : text) : Prop :=
  exists a b, s = a ++ repeat c n ++ b.

(** The depth a logical line is emitted at when the loop reaches it with
    [indent_level = d], and the depth the loop leaves it with. *)
Definition emit_depth (d : Z) (l : text) : Z :=
  if startswith rbrace l then Z.max 0 (d - 1) else d.

Definition next_depth (d : Z) (l : text) : Z :=
  if endswith lbrace l then (emit_depth d l + 1)%Z else emit_depth d l.

(** The formatted lines of a run of logical lines entered at depth [d]. *)
Fixpoint emit (d : Z) (ls : list text) : list text :=
  match ls with
  | [] => []
  | l :: ls' =>
      (str_mul (str "    ") (emit_depth d l) ++ l) :: emit (next_depth d l) ls'
  end.

Definition final_depth (d : Z) (ls : list text) : Z :=
  fold_left next_depth ls d.

(** A brace as the running count meets it. *)
Inductive brace_event : Type := Closes | Opens.

(** The two tests the loop makes on a logical line, in its order: does the
    line start with [}], does it end with [{]. *)
Definition line_events (l : text) : list brace_event :=
  (if startswith rbrace l then [Closes] else [])
  ++ (if endswith lbrace l then [Opens] else []).

(** The clamped running (opens - closes) count: it starts at 0, an opening
    brace adds one, a closing brace takes one away but never below 0. *)
Definition clamp_step (d : Z) (e : brace_event) : Z :=
  match e with
  | Opens => (d + 1)%Z
  | Closes => Z.max 0 (d - 1)
  end.

Definition clamped_count (evs : list brace_event) : Z :=
  fold_left clamp_step evs 0%Z.

(** The plain (opens - closes) difference, and the lowest value it takes
    over the prefixes of the sequence (at most 0, the empty prefix's). *)
Definition delta (e : brace_event) : Z :=
  match e with
  | Opens => 1%Z
  | Closes => (-1)%Z
  end.

Fixpoint net (evs : list brace_event) : Z :=
  match evs with
  | [] => 0%Z
  | e :: evs' => (delta e + net evs')%Z
  end.

Fixpoint lowest (evs : list brace_event) : Z :=
  match evs with
  | [] => 0%Z
  | e :: evs' => Z.min 0 (delta e + lowest evs')
  end.

(** Two neighbouring characters of the text are both [c]. *)
Fixpoint adjacent (c : char) (s : text) : Prop :=
  match s with
  | x :: (y :: _) as s' => (x = c /\ y = c) \/ adjacent c s'
  | _ => False
  end.

(** The table of a runtime with no alphanumeric code point beyond ASCII, for
    the examples (whose texts are ASCII). *)
Definition ascii_table : char -> bool := fun _ => false.

(** ** Vocabulary of the script's properties *)

(** The selector of the script, on the text of a file: at most 3 physical
    lines and more than 200 characters. *)
Definition selected (t : text) : bool :=
  (List.length (readlines t) <=? 3)%nat && (200 <? List.length t)%nat.



(** The paths the loop visits, in order: the names ending in [.java] of each
    triple, joined to the triple's root. *)
Definition java_paths (walk : list (string * list string * list string))
  : list string :=
  flat_map (fun entry =>
              map (path_join (fst (fst entry)))
                (List.filter (name_endswith ".java") (snd entry)))
    walk.

(** The loop over the visited paths. *)
Definition visit_all (ua : char -> bool) (ps : list string)
  (st : option script_state) : option script_state :=
  fold_left (fun st p => match st with
                         | Some st => visit_path ua st p
                         | None => None
                         end) ps st.

(** ** Vocabulary of the shape of the output *)

(** A text that neither starts nor ends with whitespace. *)
Definition trimmed (s : text) : Prop :=
  (forall c r, s = c :: r -> isspace c = false) /\
  (forall r c, s = r ++ [c] -> isspace c = false).

(** The formatted lines as a reader of the written file finds them: a file
    written from no line at all holds one empty line. *)
Definition written_lines (ls : list text) : list text :=
  match ls with
  | [] => [[]]
  | _ :: _ => ls
  end.

(** The three characters that get a line break after them. *)
Definition structural (c : char) : bool :=
  (c =? lbrace) || (c =? rbrace) || (c =? semi).

(** Every [b] of the text is followed by a newline. *)
Fixpoint ends_line (b : char) (s : text) : bool :=
  match s with
  | [] => true
  | x :: s' => (negb (x =? b) || startswith nl s') && ends_line b s'
  end.

(** [b] occurs in the line as its last character only. *)
Definition last_only (b : char) (l : text) : Prop :=
  forall a rest, l = a ++ b :: rest -> rest = [].

(** A rule that takes no newline away from behind a character: a match that
    starts with a newline is replaced by a text that starts with one (or the
    pattern starts with a literal that is no newline). *)
Definition keeps_break (r : regex) (repl : text) : bool :=
  startswith nl repl
  || match r with
     | Lit (x :: _) :: _ => negb (x =? nl)
     | WordB :: Lit (x :: _) :: _ => negb (x =? nl)
     | _ => false
     end.

(** A rule that keeps every [b] followed by a newline. *)
Definition rule_keeps (b : char) (pr : regex * text) : bool :=
  keeps_break (fst pr) (snd pr) && ends_line b (snd pr).

(** The braces of a text, in the order of the text. *)
Definition brace_events (s : text) : list brace_event :=
  flat_map (fun c => if c =? lbrace then [Opens]
                     else if c =? rbrace then [Closes] else []) s.

(** The braces of a written line that move the depth: a closing brace that
    is the first character of the line after its indentation, and every
    opening brace. *)
Definition counted_braces (o : text) : list brace_event :=
  (if startswith rbrace (lstrip o) then [Closes] else [])
  ++ repeat Opens (count lbrace o).

(** The shape of a logical line of the rewritten text: not empty, trimmed,
    and with a brace as its last character only. *)
Definition shaped (l : text) : Prop :=
  l <> [] /\ trimmed l /\ last_only lbrace l /\ last_only rbrace l.

(** ** Vocabulary of keyword isolation *)

(** The words the keyword rules look for. *)
Definition keywords : list text :=
  [ str "package"; str "import"; str "public"; str "class"; str "interface";
    str "enum"; str "private"; str "protected"; str "static"; str "final" ].

(** Whitespace that does not break the line. *)
Definition hspace (c : char) : Prop := isspace c = true /\ c <> nl.

(** The prefix ends with the character [c] followed by whitespace that stays
    on the line: what comes next is on the line of [c]. *)
Definition glued (c : char) (x : text) : Prop :=
  exists x0 ws, x = x0 ++ c :: ws /\ Forall hspace ws.

(** The tail of a keyword pattern after its [\b]: keywords, each followed by
    [\s+], and possibly a final negative lookahead. *)
Fixpoint kw_tail (r : regex) : Prop :=
  match r with
  | [] => True
  | [NotAhead _] => True
  | Lit k :: Spaces1 :: r' => In k keywords /\ kw_tail r'
  | _ => False
  end.

(** The three kinds of pattern of the source. *)
Definition kw_pattern (r : regex) : Prop :=
  exists k r', r = WordB :: Lit k :: Spaces1 :: r' /\ In k keywords /\ kw_tail r'.

Definition char_pattern (r : regex) : Prop :=
  r = [Lit [lbrace]] \/ r = [Lit [rbrace]] \/ r = [Lit [semi]].

Definition newline_pattern (r : regex) : Prop :=
  exists n, r = [Newlines (S n)].

(** What the replacement of a rule must be for the rule to leave an
    identifier and the token before it on one line: it has the pattern's
    literals, it ends with whitespace, it starts with no word character unless
    its pattern is a keyword pattern, and the whitespace it ends with breaks
    no line, unless the last thing before that whitespace is a brace or a
    semicolon. *)
Definition glue_safe (repl : text) : Prop :=
  forall r0 x rws,
    repl = r0 ++ x :: rws -> isspace x = false -> all_space rws ->
    x = lbrace \/ x = rbrace \/ x = semi \/ Forall hspace rws.

(** A rewriting of a text by a rule with replacement [repl]: characters are
    copied, and matched pieces, which hold something else than in-line
    whitespace, are replaced by [repl], which has their non-whitespace
    characters. *)
Inductive rewrites (repl : text) : text -> text -> Prop :=
| rewrites_nil : rewrites repl [] []
| rewrites_copy x s s' :
    rewrites repl s s' -> rewrites repl (x :: s) (x :: s')
| rewrites_match m s s' :
    m <> [] -> ~ Forall hspace m -> nonws m = nonws repl ->
    rewrites repl s s' -> rewrites repl (m ++ s) (repl ++ s').

(** The rules of the table whose pattern starts with [\b]: all but the
    three one-character rules. *)
Definition keyword_rules : list (regex * text) :=
  List.filter (fun pr => match fst pr with WordB :: _ => true | _ => false end)
    replacements.

(** A line with its newline. *)
Definition terminated (l : text) : text := l ++ [nl].

(** A decidable test for [glue_safe], on the reversed replacement. *)
Fixpoint leading_hspace (l : text) : bool :=
  match l with
  | [] => true
  | x :: l' => if isspace x then negb (x =? nl) && leading_hspace l' else true
  end.

Definition glue_check (repl : text) : bool :=
  leading_hspace (rev repl)
  || match lstrip (rev repl) with
     | [] => true
     | x :: _ => (x =? lbrace) || (x =? rbrace) || (x =? semi)
     end.

Section KeywordVocabulary.
Variable ua : char -> bool.

Definition word (s : text) : Prop := Forall (fun c => isword ua c = true) s.

(** A text made of characters that are no word characters and of keywords,
    each followed by such a character. *)
Inductive tokens : text -> Prop :=
| tokens_nil : tokens []
| tokens_char x m : isword ua x = false -> tokens m -> tokens (x :: m)
| tokens_kw k y m :
    In k keywords -> isword ua y = false -> tokens m -> tokens (k ++ y :: m).

(** What every match of a rule satisfies. *)
Definition rule_ok (r : regex) (repl : text) : Prop :=
  repl <> [] /\
  isword_opt ua (last_or None repl) = false /\
  glue_safe repl /\
  forall prev s n,
    match_here ua r prev s = Some (S n) ->
    (S n <= List.length s)%nat /\
    tokens (firstn (S n) s) /\
    nonws (firstn (S n) s) = nonws repl /\
    ~ Forall hspace (firstn (S n) s) /\
    (isword_opt ua (head s) = true -> isword_opt ua prev = false) /\
    (isword_opt ua (head s) = false -> isword_opt ua (head repl) = false).

(** [c] is the last character of [a] that is no whitespace. *)
Definition follows (c : char) (a : text) : Prop :=
  exists a0 ws, a = a0 ++ c :: ws /\ all_space ws.

(** A character that is neither whitespace nor one of the three structural
    characters that get a line break after them. *)
Definition plain (c : char) : Prop :=
  isspace c = false /\ c <> lbrace /\ c <> rbrace /\ c <> semi.

(** The text holds the identifier [w] between a rewriting of [a0] and a
    rewriting of [b0], as a whole word, and on the line of the last plain
    character before it, when there is one. *)
Definition isolated (w a0 b0 t : text) : Prop :=
  exists a b,
    t = a ++ w ++ b /\
    isword_opt ua (last_or None a) = false /\
    isword_opt ua (head b) = false /\
    nonws a = nonws a0 /\ nonws b = nonws b0 /\
    forall c, plain c -> follows c a0 -> glued c a.

End KeywordVocabulary.

(** ** Example texts *)

(** ["a\nb\nc\nd\ne\n"]: five lines, the last one terminated. *)
Definition five_terminated_lines : text :=
  join nl [str "a"; str "b"; str "c"; str "d"; str "e"] ++ [nl].

(** ["a\n\n\nb\nc\nd"]: six pieces, with a run of three newlines. *)
Definition six_lines_with_blank_run : text :=
  str "a" ++ [nl; nl; nl] ++ join nl [str "b"; str "c"; str "d"].

(** A closing brace right after a keyword: the rule of [static] takes the
    line break before the brace away. *)
Definition brace_after_keyword : text := str "a{static}b;".

(** The scenario's class on one physical line. *)
Definition scenario_class : text :=
  str "class Foo{private int x;public Foo(){x=0;}}".

(** The scenario's expected lines, each with its depth. *)
Definition scenario_lines : list (Z * string) :=
  [ (0, "class Foo {"); (1, "private int x;"); (1, "public Foo() {");
    (2, "x=0;"); (1, "}"); (0, "}") ]%Z.

(** A line at a depth, one depth unit being four spaces. *)
Definition render (dl : Z * string) : text :=
  str_mul (str "    ") (fst dl) ++ str (snd dl).

(** A file system with one file, and the text the reformatter leaves in it. *)
Definition foo_fs : gmap string disk_file :=
  {[ "Foo.java"%string := DiskFile (Some (str "class A{}")) true ]}.

Definition foo_formatted : text :=
  str "class A {" ++ [nl] ++ str "}" ++ [nl].

(** A tree as the walk yields it, and its files: a long one-line class, a
    short class and a text file. *)
Definition demo_walk : list (string * list string * list string) :=
  [ ("src/main/java"%string, ["app"%string], ["Foo.java"%string; "notes.txt"%string]);
    ("src/main/java/app"%string, [], ["Bar.java"%string]) ].

Definition demo_fs : gmap string disk_file :=
  <["src/main/java/Foo.java"%string
      := DiskFile (Some (scenario_class ++ repeat sp 180)) true]>
    (<["src/main/java/notes.txt"%string := DiskFile None false]>
       {[ "src/main/java/app/Bar.java"%string
            := DiskFile (Some (str "class B{}")) false ]}).

(** ** Lemmas on the string primitives *)

Section Primitives.

Lemma lstrip_app_ws (w t : text) :
  all_space w -> lstrip (w ++ t) = lstrip t.
Proof.
  induction 1 as [|c w Hc _ IH]; simpl; [reflexivity|].
  now rewrite Hc.
Qed.

Lemma lstrip_all_ws (w : text) : all_space w -> lstrip w = [].
Proof.
  induction 1 as [|c w Hc _ IH]; simpl; [reflexivity|].
  now rewrite Hc.
Qed.

Lemma lstrip_decomp (s : text) :
  exists w, s = w ++ lstrip s /\ all_space w.
Proof.
  induction s as [|c s [w [E F]]]; simpl.
  - exists []. split; [reflexivity|constructor].
  - destruct (isspace c) eqn:Hc.
    + exists (c :: w). split; [simpl; congruence|now constructor].
    + exists []. split; [reflexivity|constructor].
Qed.

Lemma lstrip_head (s : text) c r :
  lstrip s = c :: r -> isspace c = false.
Proof.
  induction s as [|x s IH]; simpl; [discriminate|].
  destruct (isspace x) eqn:Hx; [exact IH|].
  intros E. injection E as -> _. exact Hx.
Qed.

Lemma lstrip_nil_all_ws (s : text) : lstrip s = [] -> all_space s.
Proof.
  intros E. destruct (lstrip_decomp s) as [w [Hs Hw]].
  rewrite E, app_nil_r in Hs. now subst.
Qed.

Lemma lstrip_nonws_head c (r : text) :
  isspace c = false -> lstrip (c :: r) = c :: r.
Proof. intros H; simpl; now rewrite H. Qed.

Lemma all_space_rev (w : text) : all_space w -> all_space (rev w).
Proof.
  unfold all_space. rewrite !List.Forall_forall. intros H x Hx.
  apply H. now apply in_rev.
Qed.

Lemma all_space_app (a b : text) :
  all_space (a ++ b) <-> all_space a /\ all_space b.
Proof. unfold all_space. apply List.Forall_app. Qed.

Lemma rstrip_app_ws (t w : text) :
  all_space w -> rstrip (t ++ w) = rstrip t.
Proof.
  intros Hw. unfold rstrip. rewrite rev_app_distr.
  now rewrite lstrip_app_ws by now apply all_space_rev.
Qed.

Lemma rstrip_decomp (s : text) :
  exists w, s = rstrip s ++ w /\ all_space w.
Proof.
  destruct (lstrip_decomp (rev s)) as [w [E F]].
  exists (rev w). split.
  - unfold rstrip. rewrite <- rev_app_distr, <- E. now rewrite rev_involutive.
  - now apply all_space_rev.
Qed.

Lemma rstrip_last (s r : text) c :
  rstrip s = r ++ [c] -> isspace c = false.
Proof.
  unfold rstrip. intros E.
  apply (f_equal (@rev N)) in E. rewrite rev_involutive, rev_app_distr in E.
  simpl in E. now apply lstrip_head in E.
Qed.

Lemma rstrip_cons_nonws c (r : text) :
  isspace c = false -> exists r', rstrip (c :: r) = c :: r'.
Proof.
  intros Hc. destruct (rstrip_decomp (c :: r)) as [w [E Hw]].
  destruct (rstrip (c :: r)) as [|x r'] eqn:Er.
  - simpl in E. subst w. inversion Hw; congruence.
  - injection E as -> _. now exists r'.
Qed.

(** [strip] removes a whitespace prefix and a whitespace suffix and nothing
    else. *)
Lemma strip_decomp (s : text) :
  exists w1 w2, s = w1 ++ strip s ++ w2 /\ all_space w1 /\ all_space w2.
Proof.
  destruct (lstrip_decomp s) as [w1 [E1 F1]].
  destruct (rstrip_decomp (lstrip s)) as [w2 [E2 F2]].
  exists w1, w2. unfold strip. now rewrite <- E2.
Qed.

Lemma strip_all_ws (w : text) : all_space w -> strip w = [].
Proof. intros H. unfold strip. now rewrite lstrip_all_ws. Qed.

Lemma strip_pad (w1 t w2 : text) :
  all_space w1 -> all_space w2 -> strip (w1 ++ t ++ w2) = strip t.
Proof.
  intros H1 H2. unfold strip. rewrite lstrip_app_ws by assumption.
  destruct (lstrip t) as [|c r] eqn:E.
  - rewrite lstrip_all_ws; [reflexivity|].
    apply all_space_app. split; [now apply lstrip_nil_all_ws|assumption].
  - destruct (lstrip_decomp t) as [w [Et Hw]]. rewrite E in Et.
    rewrite Et at 1. rewrite <- app_assoc, lstrip_app_ws by assumption.
    change ((c :: r) ++ w2) with (c :: (r ++ w2)).
    rewrite lstrip_nonws_head by now apply lstrip_head in E.
    change (c :: r ++ w2) with ((c :: r) ++ w2).
    now apply rstrip_app_ws.
Qed.

Lemma strip_head (s r : text) c : strip s = c :: r -> isspace c = false.
Proof.
  unfold strip. intros E.
  destruct (lstrip s) as [|x l] eqn:El; [discriminate|].
  pose proof (lstrip_head _ _ _ El) as Hx.
  destruct (rstrip_cons_nonws x l Hx) as [r' Er].
  rewrite Er in E. now injection E as -> _.
Qed.

Lemma strip_last (s r : text) c : strip s = r ++ [c] -> isspace c = false.
Proof. unfold strip. apply rstrip_last. Qed.

End Primitives.

Section SplitJoin.

Lemma count_cons c x (s : text) :
  count c (x :: s) = ((if N.eqb c x then 1 else 0) + count c s)%nat.
Proof. unfold count. simpl. now destruct (c =? x). Qed.

Lemma split_length sep (s : text) :
  List.length (split sep s) = S (count sep s).
Proof.
  induction s as [|c s IH]; [reflexivity|].
  rewrite count_cons. simpl. rewrite (N.eqb_sym sep c).
  destruct (c =? sep); simpl; [now rewrite IH|].
  destruct (split sep s); simpl in *; lia.
Qed.

Lemma split_not_nil sep (s : text) : split sep s <> [].
Proof.
  intros E. apply (f_equal (@List.length _)) in E.
  rewrite split_length in E. discriminate.
Qed.

Lemma contains_count c (s : text) :
  contains c s = true <-> (0 < count c s)%nat.
Proof.
  induction s as [|x s IH]; simpl.
  - unfold count; simpl. split; [discriminate|lia].
  - rewrite count_cons. destruct (c =? x); simpl; [split; [lia|reflexivity]|].
    exact IH.
Qed.

(** More than one piece means the separator occurs. *)
Lemma split_many_contains sep (s : text) :
  (1 < List.length (split sep s))%nat -> contains sep s = true.
Proof. rewrite split_length. intros H. apply contains_count. lia. Qed.

Lemma split_no_sep sep (s : text) :
  Forall (fun l => ~ In sep l) (split sep s).
Proof.
  induction s as [|c s IH]; simpl.
  - constructor; [intros []|constructor].
  - destruct (c =? sep) eqn:E.
    + constructor; [intros []|exact IH].
    + destruct (split sep s) as [|l ls]; [repeat constructor; intros [->|[]];
        now rewrite N.eqb_refl in E|].
      inversion IH as [|? ? Hl Hls]; subst. constructor; [|exact Hls].
      intros [->|H]; [now rewrite N.eqb_refl in E|now apply Hl].
Qed.

Lemma join_cons sep (l : text) (ls : list text) :
  ls <> [] -> join sep (l :: ls) = l ++ sep :: join sep ls.
Proof. destruct ls; [congruence|reflexivity]. Qed.

Lemma split_app_no_sep sep (l s : text) :
  ~ In sep l ->
  split sep (l ++ s) =
    match split sep s with
    | p :: ps => (l ++ p) :: ps
    | [] => [l]
    end.
Proof.
  induction l as [|c l IH]; intros Hl; simpl.
  - destruct (split sep s) eqn:E; [now apply split_not_nil in E|reflexivity].
  - destruct (c =? sep) eqn:E.
    + apply N.eqb_eq in E. subst. exfalso. apply Hl. now left.
    + rewrite IH by (intros H; apply Hl; now right).
      destruct (split sep s); reflexivity.
Qed.

Lemma split_nosep sep (l : text) : ~ In sep l -> split sep l = [l].
Proof.
  intros H. rewrite <- (app_nil_r l) at 1.
  rewrite split_app_no_sep by assumption. simpl. now rewrite app_nil_r.
Qed.

(** Splitting a join gives the pieces back. *)
Lemma split_join sep (ls : list text) :
  ls <> [] -> Forall (fun l => ~ In sep l) ls -> split sep (join sep ls) = ls.
Proof.
  induction ls as [|l ls IH]; [congruence|]. intros _ H.
  inversion H as [|? ? Hl Hls]; subst.
  destruct ls as [|l' ls'].
  - simpl. now apply split_nosep.
  - rewrite join_cons by discriminate.
    rewrite split_app_no_sep by assumption.
    cbn [split]. rewrite N.eqb_refl.
    rewrite IH by (try discriminate; assumption). now rewrite app_nil_r.
Qed.

Lemma join_snoc sep (ls : list text) (l : text) :
  ls <> [] -> join sep (ls ++ [l]) = join sep ls ++ sep :: l.
Proof.
  induction ls as [|x ls IH]; [congruence|]. intros _.
  destruct ls as [|y ls']; [reflexivity|].
  change ((x :: y :: ls') ++ [l]) with (x :: ((y :: ls') ++ [l])).
  rewrite join_cons by (destruct ls'; discriminate).
  rewrite IH by discriminate.
  rewrite (join_cons sep x (y :: ls')) by discriminate.
  now rewrite <- app_assoc.
Qed.

End SplitJoin.

Section NonWs.

Lemma nonws_app (a b : text) : nonws (a ++ b) = nonws a ++ nonws b.
Proof. apply List.filter_app. Qed.

Lemma nonws_all_space (w : text) : all_space w -> nonws w = [].
Proof.
  induction 1 as [|c w Hc _ IH]; [reflexivity|].
  unfold nonws in *. simpl. now rewrite Hc.
Qed.

Lemma nonws_nil_all_space (w : text) : nonws w = [] -> all_space w.
Proof.
  induction w as [|c w IH]; [constructor|].
  unfold nonws. simpl. destruct (isspace c) eqn:Hc; simpl; [|discriminate].
  intros H. constructor; [assumption|now apply IH].
Qed.

Lemma nonws_strip (s : text) : nonws (strip s) = nonws s.
Proof.
  destruct (strip_decomp s) as [w1 [w2 [E [H1 H2]]]].
  rewrite E at 2. rewrite !nonws_app.
  now rewrite (nonws_all_space w1), (nonws_all_space w2), app_nil_r.
Qed.

Lemma nonws_replace_nl (s : text) : nonws (replace nl sp s) = nonws s.
Proof.
  induction s as [|c s IH]; [reflexivity|].
  unfold nonws, replace in *. simpl. destruct (c =? nl) eqn:E.
  - apply N.eqb_eq in E. subst. simpl. exact IH.
  - destruct (isspace c); simpl; now rewrite IH.
Qed.

Lemma count_nonws c (s : text) :
  isspace c = false -> count c (nonws s) = count c s.
Proof.
  intros Hc. induction s as [|x s IH]; [reflexivity|].
  unfold nonws in *. simpl. destruct (isspace x) eqn:Hx; simpl.
  - rewrite IH, count_cons. destruct (c =? x) eqn:E; [|reflexivity].
    apply N.eqb_eq in E. congruence.
  - now rewrite !count_cons, IH.
Qed.

Lemma nonws_concat_split (s : text) : nonws (concat (split nl s)) = nonws s.
Proof.
  induction s as [|c s IH]; [reflexivity|]. simpl.
  destruct (c =? nl) eqn:E.
  - apply N.eqb_eq in E. subst. simpl. exact IH.
  - destruct (split nl s) as [|l ls] eqn:Es; [now apply split_not_nil in Es|].
    simpl in *. unfold nonws in *. simpl. now rewrite IH.
Qed.

End NonWs.

(** ** What a match consumes *)

Section Matching.
Variable ua : char -> bool.

Lemma strip_prefix_spec (l s s' : text) :
  strip_prefix l s = Some s' -> s = l ++ s'.
Proof.
  revert s. induction l as [|a l IH]; intros s; simpl.
  - now intros [= ->].
  - destruct s as [|c s]; [discriminate|].
    destruct (a =? c) eqn:E; [|discriminate].
    apply N.eqb_eq in E. subst. intros H. now rewrite (IH _ H).
Qed.

Lemma option_map_Some {A B} (f : A -> B) o b :
  option_map f o = Some b -> exists a, o = Some a /\ b = f a.
Proof. destruct o; simpl; [intros [= <-]; eauto|discriminate]. Qed.

(** A greedy repeat consumes [j] characters of its class and hands the rest
    to its continuation. *)
Lemma greedy_spec p (k : cont) prev (s : text) n :
  greedy p k prev s = Some n ->
  exists j prev',
    (j <= n)%nat /\ (j <= List.length s)%nat /\
    Forall (fun c => p c = true) (firstn j s) /\
    k prev' (skipn j s) = Some (n - j)%nat.
Proof.
  revert prev n. induction s as [|c s IH]; intros prev n; simpl.
  - intros H. exists O, prev. simpl. rewrite Nat.sub_0_r.
    repeat split; [lia|lia|constructor|exact H].
  - assert (Hstop : k prev (c :: s) = Some n ->
      exists j prev', (j <= n)%nat /\ (j <= S (List.length s))%nat /\
        Forall (fun c => p c = true) (firstn j (c :: s)) /\
        k prev' (skipn j (c :: s)) = Some (n - j)%nat).
    { intros H. exists O, prev. simpl. rewrite Nat.sub_0_r.
      repeat split; [lia|lia|constructor|exact H]. }
    destruct (p c) eqn:Hc; [|exact Hstop].
    destruct (greedy p k (Some c) s) as [m|] eqn:G; [|exact Hstop].
    intros [= <-]. destruct (IH _ _ G) as (j & prev' & H1 & H2 & H3 & H4).
    exists (S j), prev'. simpl.
    repeat split; [lia|lia|now constructor|exact H4].
Qed.

Lemma at_least_spec m p (k : cont) prev (s : text) n :
  at_least m p k prev s = Some n ->
  exists j prev',
    (m <= j)%nat /\ (j <= n)%nat /\ (j <= List.length s)%nat /\
    Forall (fun c => p c = true) (firstn j s) /\
    k prev' (skipn j s) = Some (n - j)%nat.
Proof.
  revert prev s n. induction m as [|m IH]; intros prev s n; simpl.
  - intros H. destruct (greedy_spec _ _ _ _ _ H) as (j & prev' & ?).
    exists j, prev'. intuition lia.
  - destruct s as [|c s]; [discriminate|].
    destruct (p c) eqn:Hc; [|discriminate].
    intros H. apply option_map_Some in H. destruct H as (n' & H & ->).
    destruct (IH _ _ _ H) as (j & prev' & H1 & H2 & H3 & H4 & H5).
    exists (S j), prev'. simpl.
    repeat split; [lia|lia|lia|now constructor|exact H5].
Qed.

Lemma firstn_split (j n : nat) (s : text) :
  (j <= n)%nat -> firstn n s = firstn j s ++ firstn (n - j) (skipn j s).
Proof.
  intros H. rewrite take_take_drop. f_equal. lia.
Qed.

Lemma all_space_eq_nl (w : text) :
  Forall (fun c => (nl =? c) = true) w -> all_space w.
Proof.
  apply List.Forall_impl. intros c H. apply N.eqb_eq in H. now subst.
Qed.

(** A match consumes, whitespace apart, exactly the pattern's literals. *)
Lemma match_here_nonws r prev (s : text) n :
  match_here ua r prev s = Some n ->
  (n <= List.length s)%nat /\ nonws (firstn n s) = nonws (lits r).
Proof.
  revert prev s n. induction r as [|a r IH]; intros prev s n.
  - intros [= <-]. split; [simpl; lia|reflexivity].
  - assert (Hrep : forall m p,
        (forall w, Forall (fun c => p c = true) w -> all_space w) ->
        at_least m p (match_here ua r) prev s = Some n ->
        (n <= List.length s)%nat /\ nonws (firstn n s) = nonws (lits r)).
    { intros m p Hp H.
      destruct (at_least_spec _ _ _ _ _ _ H) as (j & prev' & _ & H2 & H3 & H4 & H5).
      destruct (IH _ _ _ H5) as [L E]. rewrite length_skipn in L.
      split; [lia|]. rewrite (firstn_split j n) by assumption.
      now rewrite nonws_app, E, (nonws_all_space _ (Hp _ H4)). }
    destruct a as [l| | |alts|m]; cbn [match_here lits].
    + destruct (strip_prefix l s) as [s'|] eqn:P; [|discriminate].
      intros H. apply option_map_Some in H. destruct H as (n' & H & ->).
      apply strip_prefix_spec in P. subst s.
      destruct (IH _ _ _ H) as [L E]. rewrite List.length_app. split; [lia|].
      rewrite firstn_app_2, !nonws_app. now rewrite E.
    + destruct (at_boundary ua prev (head s)); [apply IH|discriminate].
    + apply (Hrep 1%nat isspace). intros w Hw; exact Hw.
    + destruct (existsb _ alts); [discriminate|apply IH].
    + apply (Hrep m (N.eqb nl)). exact all_space_eq_nl.
Qed.

(** Substitution keeps the non-whitespace characters when the replacement
    has those of the pattern. *)
Lemma sub_from_nonws r (repl : text) :
  nonws repl = nonws (lits r) ->
  forall (s : text) skip prev,
    nonws (sub_from ua r repl skip prev s) = nonws (skipn skip s).
Proof.
  intros Hr. induction s as [|c s IH]; intros skip prev.
  - now destruct skip.
  - destruct skip as [|k]; [|apply IH].
    cbn [sub_from skipn].
    destruct (match_here ua r prev (c :: s)) as [[|n]|] eqn:M.
    + change (nonws (c :: ?x)) with (nonws ([c] ++ x)).
      rewrite !nonws_app. now rewrite IH.
    + destruct (match_here_nonws _ _ _ _ M) as [L E].
      rewrite nonws_app, IH, Hr, <- E.
      rewrite <- nonws_app. f_equal.
      change (skipn n s) with (skipn (S n) (c :: s)).
      now rewrite firstn_skipn.
    + change (nonws (c :: ?x)) with (nonws ([c] ++ x)).
      rewrite !nonws_app. now rewrite IH.
Qed.

Lemma re_sub_nonws r (repl s : text) :
  nonws repl = nonws (lits r) -> nonws (re_sub ua r repl s) = nonws s.
Proof. intros H. unfold re_sub. now rewrite sub_from_nonws. Qed.

Lemma replacements_nonws :
  Forall (fun pr => nonws (snd pr) = nonws (lits (fst pr))) replacements.
Proof. repeat constructor. Qed.

Lemma apply_replacements_nonws rules (s : text) :
  Forall (fun pr => nonws (snd pr) = nonws (lits (fst pr))) rules ->
  nonws (apply_replacements ua rules s) = nonws s.
Proof.
  intros H. revert s. induction H as [|pr rules Hpr _ IH]; intros s.
  - reflexivity.
  - unfold apply_replacements in *. simpl. rewrite IH.
    now apply re_sub_nonws.
Qed.

(** Neither a pattern of the table nor the compaction pattern matches the
    empty text, so the case [sub_from] leaves aside never arises. *)
Lemma match_nonempty r prev (s : text) n :
  nonws (lits r) <> [] \/ (exists k, r = [Newlines (S k)]) ->
  match_here ua r prev s = Some n -> n <> O.
Proof.
  intros [H|(k & ->)] M ->.
  - apply match_here_nonws in M. destruct M as [_ M]. simpl in M. congruence.
  - cbn [match_here] in M. apply at_least_spec in M.
    destruct M as (j & _ & ? & ? & _). lia.
Qed.

Lemma replacements_literals :
  Forall (fun pr => nonws (lits (fst pr)) <> []) replacements.
Proof.
  unfold replacements.
  repeat (apply List.Forall_cons; [vm_compute; discriminate|]).
  apply List.Forall_nil.
Qed.

(** X1: no rule of the table, and not the compaction of blank lines, ever
    matches the empty text. *)
Lemma table_matches_nonempty :
  Forall (fun pr => forall prev (s : text),
            match_here ua (fst pr) prev s <> Some O)
    (([Newlines 3], [nl; nl]) :: replacements).
Proof.
  apply List.Forall_cons.
  - intros prev s M.
    assert (H : exists k, [Newlines 3] = [Newlines (S k)]) by now exists 2%nat.
    now apply (match_nonempty _ _ _ _ (or_intror H) M).
  - eapply List.Forall_impl; [|exact replacements_literals].
    intros pr H prev s M. now apply (match_nonempty _ _ _ _ (or_introl H) M).
Qed.

End Matching.

(** ** The indentation loop *)

Section Indentation.

Lemma indent_step_skip st (line : text) :
  strip line = [] -> indent_step st line = st.
Proof. intros H. destruct st. unfold indent_step. now rewrite H. Qed.

Lemma indent_step_emit fl d (line : text) :
  strip line <> [] ->
  indent_step (fl, d) line =
    (fl ++ [str_mul (str "    ") (emit_depth d (strip line)) ++ strip line],
     next_depth d (strip line)).
Proof.
  intros H. unfold indent_step, next_depth, emit_depth.
  destruct (strip line) as [|c l]; [congruence|reflexivity].
Qed.

Lemma logical_lines_app (a b : list text) :
  logical_lines (a ++ b) = logical_lines a ++ logical_lines b.
Proof. unfold logical_lines. now rewrite List.map_app, List.filter_app. Qed.

Lemma logical_lines_cons (line : text) (lines : list text) :
  logical_lines (line :: lines) =
    match strip line with
    | [] => logical_lines lines
    | _ :: _ => strip line :: logical_lines lines
    end.
Proof. unfold logical_lines. simpl. now destruct (strip line). Qed.

(** The loop, started anywhere, appends the formatted logical lines. *)
Lemma fold_indent_step (lines : list text) fl d :
  fold_left indent_step lines (fl, d) =
    (fl ++ emit d (logical_lines lines), final_depth d (logical_lines lines)).
Proof.
  revert fl d. induction lines as [|line lines IH]; intros fl d.
  - simpl. now rewrite app_nil_r.
  - cbn [fold_left]. rewrite logical_lines_cons.
    destruct (strip line) as [|c l] eqn:E.
    + rewrite indent_step_skip by assumption. apply IH.
    + rewrite indent_step_emit by congruence. rewrite E, IH.
      cbn [emit final_depth fold_left]. now rewrite <- app_assoc.
Qed.

Lemma indent_loop_emit (lines : list text) :
  indent_loop lines =
    (emit 0 (logical_lines lines), final_depth 0 (logical_lines lines)).
Proof. unfold indent_loop. now rewrite fold_indent_step. Qed.

Lemma emit_app d (a b : list text) :
  emit d (a ++ b) = emit d a ++ emit (final_depth d a) b.
Proof.
  revert d. induction a as [|l a IH]; intros d; [reflexivity|].
  simpl. now rewrite IH.
Qed.

Lemma next_depth_events d (l : text) :
  next_depth d l = fold_left clamp_step (line_events l) d.
Proof.
  unfold next_depth, emit_depth, line_events.
  destruct (startswith rbrace l), (endswith lbrace l); reflexivity.
Qed.

Lemma final_depth_events d (ls : list text) :
  final_depth d ls = fold_left clamp_step (flat_map line_events ls) d.
Proof.
  revert d. induction ls as [|l ls IH]; intros d; [reflexivity|].
  cbn [flat_map]. rewrite fold_left_app, <- next_depth_events.
  unfold final_depth in *. simpl. apply IH.
Qed.

Lemma clamp_fold_nonneg evs d :
  (0 <= d)%Z -> (0 <= fold_left clamp_step evs d)%Z.
Proof.
  revert d. induction evs as [|e evs IH]; intros d Hd; [exact Hd|].
  simpl. apply IH. destruct e; simpl; lia.
Qed.

Lemma lowest_nonpos evs : (lowest evs <= 0)%Z.
Proof. destruct evs; simpl; lia. Qed.

(** The clamped count in closed form: the plain difference, lifted by how
    far below zero the plain running difference ever went. *)
Lemma clamp_fold_closed evs d :
  (0 <= d)%Z ->
  fold_left clamp_step evs d = (d + net evs - Z.min 0 (d + lowest evs))%Z.
Proof.
  revert d. induction evs as [|e evs IH]; intros d Hd.
  - simpl. lia.
  - cbn [fold_left net lowest]. pose proof (lowest_nonpos evs).
    destruct e; cbn [clamp_step delta].
    + rewrite IH by lia. lia.
    + rewrite IH by lia. lia.
Qed.

Lemma clamped_count_closed evs : clamped_count evs = (net evs - lowest evs)%Z.
Proof.
  unfold clamped_count. rewrite clamp_fold_closed by lia.
  pose proof (lowest_nonpos evs). lia.
Qed.

Lemma str_mul_all_space d : all_space (str_mul (str "    ") d).
Proof.
  unfold str_mul. induction (Z.to_nat d) as [|n IH]; simpl.
  - constructor.
  - repeat (constructor; [reflexivity|]). exact IH.
Qed.

Lemma str_mul_no_nl d : ~ In nl (str_mul (str "    ") d).
Proof.
  unfold str_mul. induction (Z.to_nat d) as [|n IH]; simpl; [tauto|].
  intros [H|[H|[H|[H|H]]]]; try discriminate. now apply IH.
Qed.

Lemma in_strip (x : N) (s : text) : In x (strip s) -> In x s.
Proof.
  intros H. destruct (strip_decomp s) as [w1 [w2 [E _]]]. rewrite E.
  apply in_or_app. right. apply in_or_app. now left.
Qed.

(** Every logical line is non-empty, starts and ends with a non-whitespace
    character, and has no newline when the lines it comes from have none. *)
Lemma logical_lines_nonempty (lines : list text) :
  Forall (fun l => l <> []) (logical_lines lines).
Proof.
  induction lines as [|line lines IH]; [constructor|].
  rewrite logical_lines_cons. destruct (strip line) eqn:E; [exact IH|].
  constructor; [discriminate|exact IH].
Qed.

Lemma logical_lines_no_nl (lines : list text) :
  Forall (fun l => ~ In nl l) lines ->
  Forall (fun l => ~ In nl l) (logical_lines lines).
Proof.
  induction 1 as [|line lines H _ IH]; [constructor|].
  rewrite logical_lines_cons. destruct (strip line) eqn:E; [exact IH|].
  constructor; [|exact IH]. rewrite <- E. intros Hin. apply H.
  now apply in_strip.
Qed.

Lemma emit_nonempty d (ls : list text) :
  Forall (fun l => l <> []) ls -> Forall (fun l => l <> []) (emit d ls).
Proof.
  intros H. revert d. induction H as [|l ls Hl _ IH]; intros d; simpl.
  - constructor.
  - constructor; [|apply IH]. intros E. apply app_eq_nil in E. tauto.
Qed.

Lemma emit_no_nl d (ls : list text) :
  Forall (fun l => ~ In nl l) ls -> Forall (fun l => ~ In nl l) (emit d ls).
Proof.
  intros H. revert d. induction H as [|l ls Hl _ IH]; intros d; simpl.
  - constructor.
  - constructor; [|apply IH]. intros Hin. apply in_app_or in Hin.
    destruct Hin as [Hin|Hin]; [now apply str_mul_no_nl in Hin|tauto].
Qed.

Lemma nonws_join (ls : list text) : nonws (join nl ls) = nonws (concat ls).
Proof.
  induction ls as [|l ls IH]; [reflexivity|].
  destruct ls as [|l' ls']; [simpl; now rewrite app_nil_r|].
  rewrite join_cons by discriminate.
  change (l ++ nl :: ?x) with (l ++ [nl] ++ x).
  change (concat (l :: l' :: ls')) with (l ++ concat (l' :: ls')).
  rewrite !nonws_app, IH. reflexivity.
Qed.

Lemma nonws_concat_emit d (ls : list text) :
  nonws (concat (emit d ls)) = nonws (concat ls).
Proof.
  revert d. induction ls as [|l ls IH]; intros d; [reflexivity|].
  cbn [emit concat]. rewrite !nonws_app, IH.
  now rewrite (nonws_all_space _ (str_mul_all_space _)).
Qed.

Lemma nonws_concat_logical (lines : list text) :
  nonws (concat (logical_lines lines)) = nonws (concat lines).
Proof.
  induction lines as [|line lines IH]; [reflexivity|].
  rewrite logical_lines_cons. cbn [concat]. rewrite nonws_app, <- IH.
  rewrite <- (nonws_strip line).
  destruct (strip line); [reflexivity|].
  cbn [concat]. now rewrite nonws_app.
Qed.

End Indentation.

(** ** The written text *)

Section Output.
Variable ua : char -> bool.

Lemma format_lines_emit (content : text) :
  exists lines : list text,
    Forall (fun l => ~ In nl l) lines /\
    format_lines ua content = emit 0 (logical_lines lines).
Proof.
  unfold format_lines. eexists. split; [|now rewrite indent_loop_emit].
  apply split_no_sep.
Qed.

Lemma format_lines_shape (content : text) :
  Forall (fun l => l <> [] /\ ~ In nl l) (format_lines ua content).
Proof.
  destruct (format_lines_emit content) as (lines & H & ->).
  apply List.Forall_and.
  - apply emit_nonempty, logical_lines_nonempty.
  - now apply emit_no_nl, logical_lines_no_nl.
Qed.

Lemma format_content_nonws (content : text) :
  nonws (format_content ua content) = nonws content.
Proof.
  unfold format_content, format_lines.
  rewrite nonws_app, nonws_join, indent_loop_emit. cbn [fst].
  rewrite nonws_concat_emit, nonws_concat_logical, nonws_concat_split.
  rewrite re_sub_nonws by reflexivity.
  rewrite apply_replacements_nonws by exact replacements_nonws.
  rewrite nonws_replace_nl. change (nonws [nl]) with (@nil N).
  now rewrite app_nil_r.
Qed.

Lemma has_run_adjacent c (s : text) : has_run c 2 s -> adjacent c s.
Proof.
  intros (a & b & ->). induction a as [|x a IH].
  - simpl. now left.
  - change ((x :: a) ++ repeat c 2 ++ b) with (x :: (a ++ repeat c 2 ++ b)).
    destruct (a ++ repeat c 2 ++ b) eqn:E.
    + destruct a; discriminate.
    + simpl. now right.
Qed.

Lemma has_run_less c n m (s : text) :
  (m <= n)%nat -> has_run c n s -> has_run c m s.
Proof.
  intros H (a & b & ->). exists a, (repeat c (n - m) ++ b).
  replace n with (m + (n - m))%nat at 1 by lia.
  now rewrite repeat_app, <- app_assoc.
Qed.

Lemma adjacent_line c (l s : text) :
  ~ In c l -> l <> [] -> ~ adjacent c s -> startswith c s = false ->
  ~ adjacent c (l ++ c :: s) /\ startswith c (l ++ c :: s) = false.
Proof.
  intros Hl Hne Hs Hh. split.
  - clear Hne. induction l as [|x l IH].
    + destruct s as [|y s]; simpl; [tauto|]. simpl in Hh.
      intros [[_ ->]|H]; [now rewrite N.eqb_refl in Hh|now apply Hs].
    + change ((x :: l) ++ c :: s) with (x :: (l ++ c :: s)).
      destruct (l ++ c :: s) as [|y r] eqn:E; [simpl; tauto|].
      intros [[-> _]|H]; [apply Hl; now left|].
      apply IH; [intros Hin; apply Hl; now right|exact H].
  - destruct l as [|x l]; [congruence|]. simpl.
    apply N.eqb_neq. intros ->. apply Hl. now left.
Qed.

(** Lines that are non-empty and free of newlines, each followed by one
    newline: no two newlines meet. *)
Lemma terminated_lines_no_blank (ls : list text) :
  Forall (fun l => l <> [] /\ ~ In nl l) ls ->
  ~ adjacent nl (concat (map (fun l => l ++ [nl]) ls)) /\
  startswith nl (concat (map (fun l => l ++ [nl]) ls)) = false.
Proof.
  induction 1 as [|l ls [Hne Hl] _ [IH1 IH2]]; [simpl; tauto|].
  cbn [map concat]. rewrite <- app_assoc. now apply adjacent_line.
Qed.

Lemma join_terminated (ls : list text) :
  ls <> [] -> join nl ls ++ [nl] = concat (map (fun l => l ++ [nl]) ls).
Proof.
  induction ls as [|l ls IH]; [congruence|]. intros _.
  destruct ls as [|l' ls']; [simpl; now rewrite app_nil_r|].
  rewrite join_cons by discriminate.
  change (concat (map (fun l => l ++ [nl]) (l :: l' :: ls')))
    with ((l ++ [nl]) ++ concat (map (fun l => l ++ [nl]) (l' :: ls'))).
  rewrite <- IH by discriminate. rewrite <- !app_assoc. reflexivity.
Qed.

Lemma format_content_no_blank (content : text) :
  ~ adjacent nl (format_content ua content).
Proof.
  unfold format_content. pose proof (format_lines_shape content) as H.
  destruct (format_lines ua content) as [|l ls] eqn:E; [simpl; tauto|].
  rewrite join_terminated by discriminate.
  now apply terminated_lines_no_blank.
Qed.

Lemma split_format_content (content : text) :
  format_lines ua content <> [] ->
  split nl (format_content ua content) = format_lines ua content ++ [[]].
Proof.
  intros Hne. unfold format_content.
  rewrite <- join_snoc by assumption.
  apply split_join; [now destruct (format_lines ua content)|].
  apply List.Forall_app. split; [|repeat constructor; tauto].
  eapply List.Forall_impl; [|apply format_lines_shape]. simpl. tauto.
Qed.

End Output.

(** ** The properties of the transform *)

Section Claims.
Variable ua : char -> bool.

Lemma reformat_skipped (t : text) :
  already_formatted (strip t) = true -> reformat ua t = (t, false).
Proof. intros H. unfold reformat. now rewrite H. Qed.

Lemma reformat_changed (t : text) :
  already_formatted (strip t) = false ->
  reformat ua t = (format_content ua (strip t), true).
Proof. intros H. unfold reformat. now rewrite H. Qed.

Lemma already_formatted_lines (content : text) :
  already_formatted content = true <->
  (5 < List.length (split nl content))%nat.
Proof.
  unfold already_formatted. rewrite andb_true_iff, Nat.ltb_lt. split.
  - tauto.
  - intros H. split; [|exact H]. apply split_many_contains. lia.
Qed.

Lemma changed_iff (t : text) :
  snd (reformat ua t) = true <-> already_formatted (strip t) = false.
Proof.
  unfold reformat. destruct (already_formatted (strip t)); simpl; split;
    congruence.
Qed.

(** C1 (amended): the skip test reads the text stripped of leading and
    trailing whitespace.  When that stripped content splits on newlines into
    more than 5 pieces (it then contains a newline), [reformat] returns the
    input text unchanged with [changed = false]; for every other input it
    returns [changed = true]. *)
Theorem skip_guard_on_stripped_content (t : text) :
  ((5 < List.length (split nl (strip t)))%nat ->
     contains nl (strip t) = true /\ reformat ua t = (t, false)) /\
  (~ (5 < List.length (split nl (strip t)))%nat ->
     snd (reformat ua t) = true).
Proof.
  split.
  - intros H. split; [apply split_many_contains; lia|].
    now apply reformat_skipped, already_formatted_lines.
  - intros H. apply changed_iff.
    destruct (already_formatted (strip t)) eqn:E; [|reflexivity].
    now apply already_formatted_lines in E.
Qed.


(** C3: brace conservation.  For every input text, the output of [reformat]
    has as many [{] as the input and as many [}]; indeed its non-whitespace
    characters are those of the input, in the same order: only whitespace is
    inserted or removed. *)
Theorem brace_conservation (t : text) :
  count lbrace (fst (reformat ua t)) = count lbrace t /\
  count rbrace (fst (reformat ua t)) = count rbrace t /\
  nonws (fst (reformat ua t)) = nonws t.
Proof.
  assert (H : nonws (fst (reformat ua t)) = nonws t).
  { unfold reformat. destruct (already_formatted (strip t)); [reflexivity|].
    cbn [fst]. now rewrite format_content_nonws, nonws_strip. }
  split; [|split; [|exact H]].
  - rewrite <- (count_nonws lbrace (fst _)), H by reflexivity.
    now apply count_nonws.
  - rewrite <- (count_nonws rbrace (fst _)), H by reflexivity.
    now apply count_nonws.
Qed.

(** C6 (amended): whenever [reformat] returns [changed = true], its output
    contains no run of 3 or more newline characters (a skipped input is
    returned as it is, blank lines included). *)
Theorem no_blank_line_runs_when_changed (t : text) :
  snd (reformat ua t) = true -> ~ has_run nl 3 (fst (reformat ua t)).
Proof.
  intros H Hrun. apply changed_iff in H.
  rewrite reformat_changed in Hrun by assumption. cbn [fst] in Hrun.
  apply (format_content_no_blank ua (strip t)).
  apply has_run_adjacent. revert Hrun. apply has_run_less. lia.
Qed.

(** C9: an input of whitespace characters only (the empty text included) is
    rewritten to a single newline, with [changed = true]. *)
Theorem whitespace_only_input (t : text) :
  all_space t -> reformat ua t = ([nl], true).
Proof.
  intros H. unfold reformat. rewrite strip_all_ws by assumption.
  reflexivity.
Qed.

(** C10: [reformat] depends on its input only up to leading and trailing
    whitespace: padding the text with whitespace on both sides leaves the
    [changed] flag as it is, and the output text too when the flag is true. *)
Theorem padding_invariance (t w1 w2 : text) :
  all_space w1 -> all_space w2 ->
  snd (reformat ua (w1 ++ t ++ w2)) = snd (reformat ua t) /\
  (snd (reformat ua t) = true ->
   fst (reformat ua (w1 ++ t ++ w2)) = fst (reformat ua t)).
Proof.
  intros H1 H2. unfold reformat. rewrite strip_pad by assumption.
  destruct (already_formatted (strip t)); simpl; [split; [reflexivity|]|].
  - discriminate.
  - split; reflexivity.
Qed.

(** The function does to the file what the core contract says of its text. *)
Lemma py_re_sub_compiled pattern r (repl s : text) :
  compile pattern = Some r -> parse_template repl = Some repl ->
  nullable r = false ->
  py_re_sub ua pattern repl s = Some (re_sub ua r repl s).
Proof.
  intros C T Nn. unfold py_re_sub. rewrite C, T. cbn. now rewrite Nn.
Qed.

(** Every pattern of the source's table compiles, to the pattern of
    [replacements] at its place; no replacement holds a backslash. *)
Lemma pattern_table_compiled :
  Forall2 (fun (pr : string * text) (rl : regex * text) =>
             compile (fst pr) = Some (fst rl) /\ snd pr = snd rl /\
             parse_template (snd rl) = Some (snd rl) /\
             nullable (fst rl) = false)
    pattern_table replacements.
Proof.
  unfold pattern_table, replacements.
  repeat (apply List.Forall2_cons; [repeat split; reflexivity|]).
  apply List.Forall2_nil.
Qed.

Lemma sub_all_compiled table rules :
  Forall2 (fun (pr : string * text) (rl : regex * text) =>
             compile (fst pr) = Some (fst rl) /\ snd pr = snd rl /\
             parse_template (snd rl) = Some (snd rl) /\
             nullable (fst rl) = false)
    table rules ->
  forall c : text,
    sub_all ua table c = Some (apply_replacements ua rules c).
Proof.
  induction 1 as [|pr rl table rules (C & E & T & Nn) _ IH]; intros c;
    [reflexivity|].
  unfold sub_all, apply_replacements in *. cbn [fold_left].
  rewrite <- IH. f_equal. cbn. rewrite E.
  now apply py_re_sub_compiled.
Qed.

(** The calls of [re.sub] in the function never raise, so the function does
    what [reformat] says with the text it read, unless the write fails. *)
Lemma reformat_java_file_reformat (fs : gmap string disk_file) (p : string)
  (f : disk_file) (t : text) :
  fs !! p = Some f -> decoded f = Some t ->
  reformat_java_file ua fs p =
    if snd (reformat ua t)
    then if writable f
         then Some (<[p := DiskFile (Some (fst (reformat ua t))) true]> fs, true)
         else None
    else Some (fs, false).
Proof.
  intros E D. unfold reformat_java_file, reformat. rewrite E.
  cbn [mbind option_bind]. rewrite D. cbn [mbind option_bind].
  destruct (already_formatted (strip t)); [reflexivity|].
  rewrite (sub_all_compiled _ _ pattern_table_compiled).
  cbn [mbind option_bind].
  rewrite (py_re_sub_compiled "\n{3,}" [Newlines 3]) by reflexivity.
  reflexivity.
Qed.

(** C7: the transform is total.  Whatever text the function reads, none of
    its calls of [re.sub] raises (every pattern compiles, no replacement is
    malformed), and it goes on to the result of [reformat]: it returns
    [False] and leaves the file system as it is, or writes the formatted
    text and returns [True].  It fails only in the I/O layer: when the path
    cannot be opened, when the file does not decode, or when the text is to
    be rewritten and the file cannot be opened for writing. *)
Theorem transform_total (fs : gmap string disk_file) (p : string) :
  (forall (f : disk_file) (t : text),
     fs !! p = Some f -> decoded f = Some t ->
     reformat_java_file ua fs p =
       if snd (reformat ua t)
       then if writable f
            then Some (<[p := DiskFile (Some (fst (reformat ua t))) true]> fs,
                       true)
            else None
       else Some (fs, false)) /\
  (reformat_java_file ua fs p = None <->
   fs !! p = None \/
   exists f, fs !! p = Some f /\
     (decoded f = None \/
      exists t : text,
        decoded f = Some t /\ snd (reformat ua t) = true /\
        writable f = false)).
Proof.
  split; [apply reformat_java_file_reformat|].
  destruct (fs !! p) as [f|] eqn:E;
    [|unfold reformat_java_file; rewrite E; cbn [mbind option_bind]; tauto].
  destruct (decoded f) as [t|] eqn:D.
  - rewrite (reformat_java_file_reformat fs p f t E D).
    destruct (snd (reformat ua t)) eqn:Ch, (writable f) eqn:W; split;
      try discriminate; try reflexivity.
    + intros [H|(f' & [= <-] & [H|(t' & H & H1 & H2)])]; congruence.
    + intros _. right. exists f. split; [reflexivity|]. right.
      exists t. repeat split; assumption.
    + intros [H|(f' & [= <-] & [H|(t' & H & H1 & H2)])]; congruence.
    + intros [H|(f' & [= <-] & [H|(t' & H & H1 & H2)])]; congruence.
  - unfold reformat_java_file. rewrite E. cbn [mbind option_bind].
    rewrite D. cbn [mbind option_bind].
    split; [|reflexivity]. intros _. right. exists f. tauto.
Qed.

(** C8: whenever the function returns [True], the text it wrote is the
    formatted lines joined by single newlines with one trailing newline (the
    lines are non-empty and hold no newline, so splitting the written text
    gives them back), and it replaced the text at the source path, no other
    path being touched. *)
Theorem writer_output (fs fs' : gmap string disk_file) (p : string) :
  reformat_java_file ua fs p = Some (fs', true) ->
  exists (f : disk_file) (t : text),
    fs !! p = Some f /\ decoded f = Some t /\ writable f = true /\
    let lines := format_lines ua (strip t) in
    let out := join nl lines ++ [nl] in
    fs' = <[p := DiskFile (Some out) true]> fs /\
    fs' !! p = Some (DiskFile (Some out) true) /\
    (forall q, q <> p -> fs' !! q = fs !! q) /\
    reformat ua t = (out, true) /\
    Forall (fun l => l <> [] /\ ~ In nl l) lines /\
    (lines <> [] -> split nl out = lines ++ [[]]) /\
    (lines = [] -> out = [nl]).
Proof.
  destruct (fs !! p) as [f|] eqn:E;
    [|unfold reformat_java_file; rewrite E; discriminate].
  destruct (decoded f) as [t|] eqn:D;
    [|unfold reformat_java_file; rewrite E; cbn [mbind option_bind];
      rewrite D; discriminate].
  rewrite (reformat_java_file_reformat fs p f t E D). unfold reformat.
  destruct (already_formatted (strip t)) eqn:G; [discriminate|]. cbn [fst snd].
  destruct (writable f) eqn:W; [|discriminate].
  intros [= <-]. exists f, t. split; [reflexivity|]. split; [exact D|].
  split; [exact W|]. cbn zeta.
  split; [reflexivity|]. split; [apply lookup_insert_eq|].
  split; [intros q Hq; now apply lookup_insert_ne|].
  split; [unfold reformat; now rewrite G|]. split; [apply format_lines_shape|].
  split; [apply split_format_content|]. now intros ->.
Qed.

End Claims.

Section IndentationClaim.

Lemma indent_loop_snoc (pre : list text) (line : text) :
  indent_loop (pre ++ [line]) = indent_step (indent_loop pre) line.
Proof. unfold indent_loop. now rewrite fold_left_app. Qed.

Lemma indent_loop_depth (lines : list text) :
  snd (indent_loop lines) =
    clamped_count (flat_map line_events (logical_lines lines)).
Proof. rewrite indent_loop_emit. cbn [snd]. apply final_depth_events. Qed.

End IndentationClaim.

(** ** Keyword isolation *)

Section Isolation.
Variable ua : char -> bool.

(** No whitespace code point is alphanumeric (a fact of the Unicode tables,
    assumed of the runtime's table beyond ASCII). *)
Hypothesis space_not_word : forall c, isspace c = true -> isword ua c = false.

Lemma word_not_space c : isword ua c = true -> isspace c = false.
Proof.
  intros H. destruct (isspace c) eqn:E; [|reflexivity].
  apply space_not_word in E. congruence.
Qed.

Lemma last_or_cons prev x (l : text) :
  last_or prev (x :: l) = last_or (Some x) l.
Proof.
  unfold last_or. simpl. destruct (rev l) as [|y r] eqn:E; [reflexivity|].
  reflexivity.
Qed.

Lemma last_or_nonnil prev prev' (l : text) :
  l <> [] -> last_or prev l = last_or prev' l.
Proof.
  intros H. unfold last_or. destruct (rev l) eqn:E; [|reflexivity].
  apply (f_equal (@rev N)) in E. rewrite rev_involutive in E. now subst.
Qed.

Lemma last_or_app prev (a b : text) :
  last_or prev (a ++ b) = last_or (last_or prev a) b.
Proof.
  revert prev. induction a as [|x a IH]; intros prev; [reflexivity|].
  change ((x :: a) ++ b) with (x :: (a ++ b)).
  now rewrite !last_or_cons, IH.
Qed.

Lemma keywords_word : Forall (word ua) keywords.
Proof. repeat constructor. Qed.

Lemma keyword_word k : In k keywords -> word ua k.
Proof. intros H. pose proof keywords_word as F. rewrite List.Forall_forall in F. now apply F. Qed.

(** A word followed by no word character is determined by the text it
    starts. *)
Lemma word_prefix_unique (w b k u : text) y :
  word ua w -> isword_opt ua (head b) = false ->
  word ua k -> isword ua y = false ->
  w ++ b = k ++ y :: u -> w = k.
Proof.
  intros Hw Hb. revert k. induction Hw as [|x w Hx _ IH]; intros k Hk Hy E.
  - destruct k as [|z k]; [reflexivity|]. simpl in E. subst b.
    inversion Hk; subst. simpl in Hb. congruence.
  - destruct k as [|z k]; simpl in E.
    + injection E as -> _. congruence.
    + injection E as -> E. inversion Hk; subst. f_equal. now apply IH.
Qed.

Section Identifier.
(** An identifier that is no keyword. *)
Variable w : text.
Hypothesis w_word : word ua w.
Hypothesis w_nonnil : w <> [].
Hypothesis w_not_keyword : ~ In w keywords.

(** A keyword lying across the end of [a] would end on a word character of
    [a] or be the identifier. *)
Lemma keyword_inside (k a t u : text) prev :
  word ua k -> a <> [] -> isword_opt ua (last_or prev a) = false ->
  a ++ t = k ++ u -> exists a', a = k ++ a' /\ a' <> [].
Proof.
  intros Hk. revert a prev. induction Hk as [|x k Hx _ IH]; intros a prev Ha Hl E.
  - now exists a.
  - destruct a as [|z a]; [congruence|]. simpl in E. injection E as -> E.
    destruct a as [|z' a].
    + unfold last_or in Hl. simpl in Hl. congruence.
    + rewrite last_or_cons in Hl.
      destruct (IH (z' :: a) (Some x)) as (a' & -> & Hne);
        [discriminate|exact Hl|exact E|].
      now exists a'.
Qed.

(** A run of tokens that starts in [a] ends in [a]: it cannot reach into the
    identifier. *)
Lemma tokens_stay_left (b : text) (b_head : isword_opt ua (head b) = false)
  (m : text) :
  tokens ua m ->
  forall (a : text) prev rest,
    a ++ w ++ b = m ++ rest ->
    isword_opt ua (last_or prev a) = false ->
    (List.length m <= List.length a)%nat.
Proof.
  induction 1 as [|x m Hx _ IH|k y m Hk Hy _ IH]; intros a prev rest E Hl.
  - simpl. lia.
  - destruct a as [|z a].
    + destruct w as [|z w']; [congruence|]. simpl in E. injection E as -> _.
      inversion w_word; subst. congruence.
    + simpl in E. injection E as -> E. simpl.
      rewrite last_or_cons in Hl. specialize (IH _ _ _ E Hl). lia.
  - rewrite <- app_assoc in E. destruct a as [|z a].
    + exfalso. apply w_not_keyword. simpl in E.
      rewrite (word_prefix_unique _ _ _ _ _ w_word b_head
                 (keyword_word _ Hk) Hy E).
      exact Hk.
    + destruct (keyword_inside k (z :: a) _ _ prev (keyword_word _ Hk)
                  ltac:(discriminate) Hl E) as (a' & Ea & Hne).
      rewrite Ea in E, Hl |- *. rewrite <- app_assoc in E.
      apply app_inv_head in E.
      destruct a' as [|y' a']; [congruence|]. simpl in E. injection E as -> E.
      rewrite last_or_app, last_or_cons in Hl.
      specialize (IH _ _ _ E Hl). rewrite !List.length_app. simpl. lia.
Qed.

(** *** Rewritings *)

Section Rewritings.
Variable repl : text.
Hypothesis repl_nonnil : repl <> [].
Hypothesis repl_last : isword_opt ua (last_or None repl) = false.
Hypothesis repl_glue : glue_safe repl.

Lemma rewrites_nonws (s s' : text) :
  rewrites repl s s' -> nonws s' = nonws s.
Proof.
  induction 1 as [|x s s' _ IH|m s s' _ _ Hm _ IH]; [reflexivity| |].
  - change (nonws (x :: ?t)) with (nonws ([x] ++ t)).
    now rewrite !nonws_app, IH.
  - now rewrite !nonws_app, IH, Hm.
Qed.

Lemma rewrites_nil_inv (s' : text) : rewrites repl [] s' -> s' = [].
Proof.
  intros H. remember [] as e eqn:He.
  destruct H as [|x s s' _|m s s' Hm _ _ _]; [reflexivity|discriminate|].
  apply app_eq_nil in He. tauto.
Qed.

Lemma rewrites_hspace (s s' : text) :
  rewrites repl s s' -> Forall hspace s -> s' = s.
Proof.
  induction 1 as [|x s s' _ IH|m s s' _ Hm _ _ IH]; intros F;
    [reflexivity| |].
  - inversion F; subst. f_equal. now apply IH.
  - apply List.Forall_app in F. tauto.
Qed.

Lemma rewrites_nonnil (s s' : text) :
  rewrites repl s s' -> s <> [] -> s' <> [].
Proof.
  destruct 1; [congruence|discriminate|]. intros _ E.
  apply app_eq_nil in E. tauto.
Qed.

(** A rewriting that ends with no word character still does. *)
Lemma rewrites_last (s s' : text) :
  rewrites repl s s' ->
  forall prev,
    isword_opt ua (last_or prev s) = false ->
    isword_opt ua (last_or prev s') = false.
Proof.
  induction 1 as [|x s s' _ IH|m s s' Hm _ _ R IH]; intros prev H.
  - exact H.
  - rewrite last_or_cons in *. now apply IH.
  - rewrite last_or_app in *. destruct s as [|y s].
    + apply rewrites_nil_inv in R. subst s'. simpl.
      now rewrite (last_or_nonnil prev None).
    + assert (Hs' : s' <> []) by (eapply rewrites_nonnil; eauto; discriminate).
      rewrite (last_or_nonnil _ (last_or prev m)) by exact Hs'.
      now apply IH.
Qed.

Lemma glued_prepend c (p s : text) : glued c s -> glued c (p ++ s).
Proof.
  intros (x0 & ws & -> & F). exists (p ++ x0), ws.
  now rewrite <- app_assoc.
Qed.

Lemma hspace_all_space (ws : text) : Forall hspace ws -> all_space ws.
Proof. apply List.Forall_impl. now intros c [H _]. Qed.

(** The last non-whitespace character of a text splits it. *)
Lemma nonws_last_split (l t : text) c :
  nonws l = t ++ [c] ->
  exists r0 rws, l = r0 ++ c :: rws /\ all_space rws.
Proof.
  revert t. induction l as [|x l IH] using rev_ind; intros t E.
  - destruct t; discriminate.
  - rewrite nonws_app in E. unfold nonws at 2 in E. simpl in E.
    destruct (isspace x) eqn:Hx; simpl in E.
    + rewrite app_nil_r in E. destruct (IH _ E) as (r0 & rws & -> & F).
      exists r0, (rws ++ [x]). rewrite <- app_assoc. split; [reflexivity|].
      apply all_space_app. split; [exact F|]. now repeat constructor.
    + apply app_inj_tail in E. destruct E as [_ ->].
      exists l, []. split; [reflexivity|constructor].
Qed.

(** A rewriting keeps what follows a plain character on its line. *)
Lemma rewrites_glued c (s s' : text) :
  plain c -> rewrites repl s s' -> glued c s -> glued c s'.
Proof.
  intros (Hc & Hl & Hr & Hs).
  induction 1 as [|x s s' R IH|m s s' Hm Hh Hn R IH]; intros (x0 & ws & E & F).
  - destruct x0; discriminate.
  - destruct x0 as [|z x0]; simpl in E; injection E as -> E.
    + subst s. rewrite (rewrites_hspace _ _ R F). now exists [], ws.
    + apply (glued_prepend c [z]). apply IH. now exists x0, ws.
  - apply List.app_eq_app in E. destruct E as (l & [[E1 E2]|[E1 E2]]).
    + destruct l as [|z l]; simpl in E2.
      * apply glued_prepend, IH. exists [], ws. now rewrite <- E2.
      * injection E2 as <- E2. subst ws. apply List.Forall_app in F.
        destruct F as [Fl Fs]. rewrite (rewrites_hspace _ _ R Fs).
        assert (En : nonws repl = nonws x0 ++ [c]).
        { rewrite <- Hn, E1, nonws_app. f_equal.
          change (c :: l) with ([c] ++ l). rewrite nonws_app.
          rewrite (nonws_all_space l) by now apply hspace_all_space.
          unfold nonws. simpl. now rewrite Hc. }
        destruct (nonws_last_split _ _ _ En) as (r0 & rws & Er & Fr).
        destruct (repl_glue _ _ _ Er Hc Fr) as [?|[?|[?|G]]]; try congruence.
        exists r0, (rws ++ s). rewrite Er, <- app_assoc. split; [reflexivity|].
        apply List.Forall_app. now split.
    + apply glued_prepend, IH. now exists l, ws.
Qed.

End Rewritings.

(** *** One rule *)

Section Rule.
Variable r : regex.
Variable repl : text.
Hypothesis Hok : rule_ok ua r repl.

Lemma rule_match prev (s : text) n :
  match_here ua r prev s = Some (S n) ->
  (S n <= List.length s)%nat /\
  tokens ua (firstn (S n) s) /\
  nonws (firstn (S n) s) = nonws repl /\
  ~ Forall hspace (firstn (S n) s) /\
  (isword_opt ua (head s) = true -> isword_opt ua prev = false) /\
  (isword_opt ua (head s) = false -> isword_opt ua (head repl) = false).
Proof. destruct Hok as (_ & _ & _ & H). apply H. Qed.

(** No match starts in the identifier: not at its first character, since it
    is no keyword, and not further in, since no word boundary is there. *)
Lemma sub_from_word (b : text) (b_head : isword_opt ua (head b) = false)
  (w2 : text) :
  word ua w2 ->
  forall prev,
    (w2 = w /\ isword_opt ua prev = false) \/ isword_opt ua prev = true ->
    sub_from ua r repl 0 prev (w2 ++ b) =
      w2 ++ sub_from ua r repl 0 (last_or prev w2) b.
Proof.
  induction 1 as [|x w2 Hx Hw2 IH]; intros prev Hp; [reflexivity|].
  rewrite last_or_cons. cbn [app sub_from].
  assert (Hcopy : x :: sub_from ua r repl 0 (Some x) (w2 ++ b) =
                  x :: w2 ++ sub_from ua r repl 0 (last_or (Some x) w2) b).
  { f_equal. apply IH. now right. }
  destruct (match_here ua r prev (x :: w2 ++ b)) as [[|n]|] eqn:M;
    [exact Hcopy| |exact Hcopy].
  exfalso. destruct (rule_match _ _ _ M) as (L & T & _ & _ & B & _).
  destruct Hp as [[E Hp]|Hp].
  - pose proof (tokens_stay_left b b_head _ T [] prev
                  (skipn (S n) (x :: w2 ++ b))) as St.
    rewrite length_firstn in St. simpl app in St.
    rewrite <- E in St. change ((x :: w2) ++ b) with (x :: w2 ++ b) in St.
    rewrite firstn_skipn in St. specialize (St eq_refl Hp).
    simpl in St, L. lia.
  - simpl in B. specialize (B Hx). congruence.
Qed.

(** The scan of the text before the identifier: its matches end before the
    identifier, which is then copied. *)
Lemma sub_from_prefix (b : text) (b_head : isword_opt ua (head b) = false)
  (a : text) :
  forall skip prev,
    (skip <= List.length a)%nat ->
    isword_opt ua (last_or prev a) = false ->
    exists a',
      sub_from ua r repl skip prev (a ++ w ++ b) =
        a' ++ w ++ sub_from ua r repl 0 (last_or None w) b /\
      rewrites repl (skipn skip a) a'.
Proof.
  induction a as [|x a IH]; intros skip prev Hs Hl.
  - exists []. destruct skip; [|simpl in Hs; lia]. split; [|constructor].
    simpl app. rewrite (last_or_nonnil None prev) by exact w_nonnil.
    apply sub_from_word; [exact b_head|exact w_word|]. left. now split.
  - rewrite last_or_cons in Hl.
    destruct skip as [|k].
    + cbn [app sub_from skipn].
      assert (Hcopy : exists a',
        x :: sub_from ua r repl 0 (Some x) (a ++ w ++ b) =
          a' ++ w ++ sub_from ua r repl 0 (last_or None w) b /\
        rewrites repl (x :: a) a').
      { destruct (IH O (Some x)) as (a' & E & R); [lia|exact Hl|].
        exists (x :: a'). rewrite E. split; [reflexivity|].
        now constructor. }
      destruct (match_here ua r prev (x :: a ++ w ++ b)) as [[|n]|] eqn:M;
        [exact Hcopy| |exact Hcopy].
      destruct (rule_match _ _ _ M) as (L & T & Nw & Nh & _).
      pose proof (tokens_stay_left b b_head _ T (x :: a) prev
                    (skipn (S n) (x :: a ++ w ++ b))) as St.
      rewrite length_firstn in St.
      change (x :: a ++ w ++ b) with ((x :: a) ++ w ++ b) in St.
      rewrite firstn_skipn in St.
      specialize (St eq_refl). rewrite last_or_cons in St.
      specialize (St Hl).
      change (x :: a ++ w ++ b) with ((x :: a) ++ w ++ b) in L.
      rewrite List.length_app in L. simpl in St, L.
      rewrite List.length_app in St.
      assert (Hn : (n <= List.length a)%nat) by lia.
      destruct (IH n (Some x) Hn Hl) as (a' & E & R).
      exists (repl ++ a'). rewrite E, <- app_assoc. split; [reflexivity|].
      assert (Em : firstn (S n) (x :: a ++ w ++ b) = firstn (S n) (x :: a)).
      { change (x :: a ++ w ++ b) with ((x :: a) ++ w ++ b).
        apply take_app_le. simpl. lia. }
      rewrite Em in Nw, Nh.
      rewrite <- (firstn_skipn (S n) (x :: a)).
      change (skipn (S n) (x :: a)) with (skipn n a).
      apply rewrites_match; [discriminate|exact Nh|exact Nw|exact R].
    + cbn [app sub_from skipn]. apply IH; [simpl in Hs; lia|exact Hl].
Qed.

(** Any scan is a rewriting. *)
Lemma sub_from_rewrites (s : text) :
  forall skip prev,
    rewrites repl (skipn skip s) (sub_from ua r repl skip prev s).
Proof.
  induction s as [|x s IH]; intros skip prev.
  - destruct skip; constructor.
  - destruct skip as [|k]; [|apply IH]. cbn [sub_from skipn].
    destruct (match_here ua r prev (x :: s)) as [[|n]|] eqn:M;
      try (constructor; apply (IH O)).
    destruct (rule_match _ _ _ M) as (L & _ & Nw & Nh & _).
    rewrite <- (firstn_skipn (S n) (x :: s)) at 1.
    change (skipn (S n) (x :: s)) with (skipn n s).
    apply rewrites_match; [discriminate|exact Nh|exact Nw|apply IH].
Qed.

(** The text after the identifier still starts with no word character. *)
Lemma sub_from_head (b : text) prev :
  isword_opt ua (head b) = false ->
  isword_opt ua (head (sub_from ua r repl 0 prev b)) = false.
Proof.
  intros Hb. destruct b as [|y b]; [reflexivity|]. cbn [sub_from].
  destruct (match_here ua r prev (y :: b)) as [[|n]|] eqn:M; try exact Hb.
  destruct (rule_match _ _ _ M) as (_ & _ & _ & _ & _ & H).
  destruct Hok as (Hne & _). destruct repl as [|z t]; [congruence|].
  exact (H Hb).
Qed.

(** One substitution keeps the identifier isolated. *)
Lemma re_sub_isolated (a0 b0 t : text) :
  isolated ua w a0 b0 t -> isolated ua w a0 b0 (re_sub ua r repl t).
Proof.
  intros (a & b & -> & La & Hb & Na & Nb & G).
  destruct Hok as (Hne & Hlast & Hglue & _).
  destruct (sub_from_prefix b Hb a O None) as (a' & E & R); [lia|exact La|].
  exists a', (sub_from ua r repl 0 (last_or None w) b).
  simpl in R.
  split; [exact E|]. split; [eapply rewrites_last; eauto|].
  split; [now apply sub_from_head|].
  split; [now rewrite (rewrites_nonws repl a a')|].
  split.
  - now rewrite (rewrites_nonws repl b _ (sub_from_rewrites b O _)).
  - intros c Hc Hf. eapply rewrites_glued; eauto.
Qed.

End Rule.

End Identifier.

(** *** The rules of the table are safe *)

Section RulesOk.

Lemma leading_hspace_spec (l rest : text) x :
  all_space l -> isspace x = false ->
  leading_hspace (l ++ x :: rest) = true -> Forall hspace l.
Proof.
  intros Hl Hx. induction Hl as [|y l Hy _ IH]; simpl; [constructor|].
  rewrite Hy. intros H. apply andb_true_iff in H. destruct H as [H1 H2].
  constructor; [|now apply IH]. split; [exact Hy|].
  apply negb_true_iff, N.eqb_neq in H1. exact H1.
Qed.

Lemma glue_check_safe (repl : text) : glue_check repl = true -> glue_safe repl.
Proof.
  intros H r0 x rws E Hx F. unfold glue_check in H. subst repl.
  rewrite rev_app_distr in H. simpl in H. rewrite <- app_assoc in H.
  simpl in H. apply orb_true_iff in H. destruct H as [H|H].
  - right; right; right. apply leading_hspace_spec in H;
      [|now apply all_space_rev|exact Hx].
    apply List.Forall_rev in H. now rewrite rev_involutive in H.
  - rewrite lstrip_app_ws in H by now apply all_space_rev.
    rewrite lstrip_nonws_head in H by exact Hx.
    apply orb_true_iff in H. destruct H as [H|H];
      [apply orb_true_iff in H; destruct H as [H|H]|];
      apply N.eqb_eq in H; tauto.
Qed.

Lemma tokens_spaces (ws m : text) :
  all_space ws -> tokens ua m -> tokens ua (ws ++ m).
Proof.
  induction 1 as [|y ws Hy _ IH]; intros Hm; [exact Hm|].
  simpl. apply tokens_char; [now apply space_not_word|now apply IH].
Qed.

(** What the tail of a keyword pattern matches is a run of tokens. *)
Lemma kw_tail_tokens (k : nat) :
  forall r, (List.length r <= k)%nat -> kw_tail r ->
  forall prev (s : text) n,
    match_here ua r prev s = Some n -> tokens ua (firstn n s).
Proof.
  induction k as [|k IH]; intros r Hlen Hr prev s n M.
  - destruct r; [|simpl in Hlen; lia]. injection M as <-. constructor.
  - destruct r as [|[kw| | |alts|m] r]; simpl in Hr; try tauto.
    + injection M as <-. constructor.
    + destruct r as [|[kw'| | |alts|m] r]; try tauto.
      destruct Hr as [Hkw Hr]. cbn [match_here] in M.
      destruct (strip_prefix kw s) as [s1|] eqn:P; [|discriminate].
      apply option_map_Some in M. destruct M as (n1 & M & ->).
      apply strip_prefix_spec in P. subst s. rewrite firstn_app_2.
      destruct (at_least_spec _ _ _ _ _ _ M)
        as (j & prev' & Hj1 & Hj2 & Hj3 & Hsp & Mk).
      assert (Hlen' : (List.length r <= k)%nat) by (simpl in Hlen; lia).
      pose proof (IH r Hlen' Hr _ _ _ Mk) as Tk.
      rewrite (firstn_split j n1) by exact Hj2.
      destruct (firstn j s1) as [|y ws] eqn:Ej.
      { apply (f_equal (@List.length N)) in Ej. rewrite length_firstn in Ej.
        simpl in Ej. lia. }
      inversion Hsp; subst. cbn [app].
      apply tokens_kw; [exact Hkw|now apply space_not_word|].
      now apply tokens_spaces.
    + destruct r; [|tauto]. cbn [match_here] in M.
      destruct (existsb _ alts); [discriminate|]. injection M as <-.
      constructor.
Qed.

Lemma not_hspace_head x (m : text) :
  isspace x = false \/ x = nl -> ~ Forall hspace (x :: m).
Proof.
  intros H F. inversion F as [|? ? [H1 H2] _]; subst.
  destruct H; congruence.
Qed.

Lemma firstn_S_head (s : text) n x :
  head s = Some x -> exists m, firstn (S n) s = x :: m.
Proof. destruct s; simpl; [discriminate|]. intros [= ->]. eauto. Qed.

Lemma kw_rule_ok r (repl : text) :
  kw_pattern r ->
  nonws repl = nonws (lits r) -> repl <> [] ->
  isword_opt ua (last_or None repl) = false -> glue_safe repl ->
  rule_ok ua r repl.
Proof.
  intros (k & r' & -> & Hk & Hr) Hn Hne Hl Hg.
  split; [exact Hne|]. split; [exact Hl|]. split; [exact Hg|].
  intros prev s n M. pose proof (match_here_nonws ua _ _ _ _ M) as [L Nw].
  assert (M' := M). cbn [match_here] in M'.
  destruct (at_boundary ua prev (head s)) eqn:B; [|discriminate].
  assert (Hx : exists x, head s = Some x /\ isword ua x = true).
  { destruct (strip_prefix k s) as [s1|] eqn:P; [|discriminate].
    apply strip_prefix_spec in P. subst s.
    pose proof (keyword_word k Hk) as Wk.
    destruct k as [|x k]; [destruct Hk as [H|[H|[H|[H|[H|[H|[H|[H|[H|[H|[]]]]]]]]]]];
      discriminate|].
    inversion Wk; subst. now exists x. }
  destruct Hx as (x & Hh & Hx).
  split; [exact L|]. split.
  - eapply (kw_tail_tokens (List.length r' + 2) (Lit k :: Spaces1 :: r'));
      [simpl; lia|simpl; tauto|exact M'].
  - split; [now rewrite Nw, Hn|]. split.
    + destruct (firstn_S_head s n x Hh) as (m & ->).
      apply not_hspace_head. left. now apply word_not_space.
    + rewrite Hh in *. simpl. split; [|congruence]. intros _.
      unfold at_boundary in B. simpl in B. rewrite Hx in B.
      now destruct (isword_opt ua prev).
Qed.

Lemma char_rule_ok r (repl : text) :
  char_pattern r ->
  nonws repl = nonws (lits r) -> repl <> [] ->
  isword_opt ua (last_or None repl) = false -> glue_safe repl ->
  isword_opt ua (head repl) = false ->
  rule_ok ua r repl.
Proof.
  intros Hr Hn Hne Hl Hg Hh.
  split; [exact Hne|]. split; [exact Hl|]. split; [exact Hg|].
  intros prev s n M. pose proof (match_here_nonws ua _ _ _ _ M) as [L Nw].
  assert (Hx : exists x s', r = [Lit [x]] /\ s = x :: s' /\ n = O /\
                 isword ua x = false /\ isspace x = false).
  { destruct Hr as [-> | [-> | ->]]; cbn [match_here] in M;
      (destruct (strip_prefix _ s) as [s1|] eqn:P; [|discriminate]);
      apply strip_prefix_spec in P; simpl in M; injection M as ->;
      eexists _, s1; repeat split; try exact P; reflexivity. }
  destruct Hx as (x & s' & -> & -> & -> & Wx & Sx).
  split; [simpl; lia|]. split; [simpl; repeat constructor; exact Wx|].
  split; [now rewrite Hn|]. split.
  - simpl. apply not_hspace_head. now left.
  - simpl. split; congruence.
Qed.

Lemma newline_rule_ok r (repl : text) :
  newline_pattern r ->
  nonws repl = nonws (lits r) -> repl <> [] ->
  isword_opt ua (last_or None repl) = false -> glue_safe repl ->
  isword_opt ua (head repl) = false ->
  rule_ok ua r repl.
Proof.
  intros (k & ->) Hn Hne Hl Hg Hh.
  split; [exact Hne|]. split; [exact Hl|]. split; [exact Hg|].
  intros prev s n M. pose proof (match_here_nonws ua _ _ _ _ M) as [L Nw].
  cbn [match_here] in M.
  destruct (at_least_spec _ _ _ _ _ _ M) as (j & prev' & H1 & H2 & H3 & F & E).
  injection E as E. assert (j = S n) by lia. subst j.
  assert (Fn : Forall (fun c => c = nl) (firstn (S n) s)).
  { revert F. apply List.Forall_impl. intros c Hc.
    apply N.eqb_eq in Hc. now subst. }
  assert (Hs : exists s', s = nl :: s').
  { destruct s as [|y s']; [simpl in L; lia|].
    inversion Fn; subst. now exists s'. }
  destruct Hs as (s' & ->).
  split; [exact L|]. split.
  - clear -Fn. induction Fn as [|c m -> _ IH]; constructor; [reflexivity|exact IH].
  - split; [now rewrite Nw, Hn|]. split.
    + apply not_hspace_head. now right.
    + simpl. split; [discriminate|]. intros _. exact Hh.
Qed.

End RulesOk.

Ltac in_keywords := simpl; repeat first [left; reflexivity | right].

Ltac kw_rule :=
  apply kw_rule_ok;
  [ eexists _, _; split; [reflexivity|]; split; [in_keywords|];
    simpl; repeat split; in_keywords
  | reflexivity | discriminate | reflexivity
  | apply glue_check_safe; reflexivity ].

Ltac char_rule :=
  apply char_rule_ok;
  [ unfold char_pattern; tauto
  | reflexivity | discriminate | reflexivity
  | apply glue_check_safe; reflexivity | reflexivity ].

Lemma replacements_ok :
  Forall (fun pr => rule_ok ua (fst pr) (snd pr)) replacements.
Proof.
  unfold replacements.
  repeat (apply List.Forall_cons; [cbn [fst snd]; first [kw_rule | char_rule]|]).
  apply List.Forall_nil.
Qed.

Lemma compaction_ok : rule_ok ua [Newlines 3] [nl; nl].
Proof.
  apply newline_rule_ok;
    [ now exists 2%nat | reflexivity | discriminate | reflexivity
    | apply glue_check_safe; reflexivity | reflexivity ].
Qed.

(** *** The whole transform *)

Section Transform.
Variable w : text.
Hypothesis w_word : word ua w.
Hypothesis w_nonnil : w <> [].
Hypothesis w_not_keyword : ~ In w keywords.

Lemma apply_replacements_isolated rules (a0 b0 t : text) :
  Forall (fun pr => rule_ok ua (fst pr) (snd pr)) rules ->
  isolated ua w a0 b0 t ->
  isolated ua w a0 b0 (apply_replacements ua rules t).
Proof.
  intros H. revert t. induction H as [|pr rules Hpr _ IH]; intros t Ht.
  - exact Ht.
  - unfold apply_replacements in *. simpl. apply IH.
    now apply re_sub_isolated.
Qed.

Lemma lstrip_app_solid (a t : text) x :
  isspace x = false -> lstrip (a ++ x :: t) = lstrip a ++ x :: t.
Proof.
  intros Hx. induction a as [|y a IH]; simpl.
  - now rewrite Hx.
  - destruct (isspace y); [exact IH|reflexivity].
Qed.

Lemma rstrip_app_solid (t b : text) x :
  isspace x = false -> rstrip ((t ++ [x]) ++ b) = (t ++ [x]) ++ rstrip b.
Proof.
  intros Hx. unfold rstrip. rewrite !rev_app_distr. simpl.
  rewrite lstrip_app_solid by exact Hx.
  rewrite rev_app_distr. simpl. now rewrite rev_involutive, <- app_assoc.
Qed.

Lemma w_ends : exists w0 x, w = w0 ++ [x] /\ isword ua x = true.
Proof.
  generalize w_word w_nonnil. generalize w. intros v F Hv.
  destruct (exists_last Hv) as (w0 & x & E). exists w0, x.
  split; [exact E|]. unfold word in F.
  rewrite E in F. apply List.Forall_app in F. destruct F as [_ F].
  now inversion F.
Qed.

Lemma w_starts : exists x w1, w = x :: w1 /\ isword ua x = true.
Proof.
  generalize w_word w_nonnil. generalize w. intros v F Hv.
  destruct v as [|x w1]; [congruence|]. exists x, w1.
  split; [reflexivity|]. now inversion F.
Qed.

Lemma strip_around (a b : text) :
  strip (a ++ w ++ b) = lstrip a ++ w ++ rstrip b.
Proof.
  unfold strip. destruct w_starts as (x & w1 & E & Hx).
  rewrite E at 1. cbn [app]. rewrite lstrip_app_solid by now apply word_not_space.
  change (x :: w1 ++ b) with ((x :: w1) ++ b). rewrite <- E.
  destruct w_ends as (w0 & y & E' & Hy). rewrite E'.
  rewrite !app_assoc. rewrite rstrip_app_solid by now apply word_not_space.
  reflexivity.
Qed.

Lemma replace_word : replace nl sp w = w.
Proof.
  generalize w_word. generalize w. intros v F.
  unfold replace. induction F as [|x l Hx _ IH]; [reflexivity|].
  simpl. rewrite IH.
  destruct (x =? nl) eqn:E; [|reflexivity].
  apply N.eqb_eq in E. subst x. apply word_not_space in Hx. discriminate.
Qed.

Lemma isword_replace x :
  isword ua x = false -> isword ua (if x =? nl then sp else x) = false.
Proof. intros H. destruct (x =? nl); [reflexivity|exact H]. Qed.

Lemma last_or_map (f : N -> N) (l : text) :
  last_or None (map f l) = option_map f (last_or None l).
Proof.
  unfold last_or. rewrite <- map_rev. now destruct (rev l).
Qed.

Lemma last_or_suffix (ws l : text) :
  l <> [] -> last_or None (ws ++ l) = last_or None l.
Proof.
  intros H. rewrite last_or_app. now apply last_or_nonnil.
Qed.

(** After stripping and flattening, the identifier is isolated. *)
Lemma flattened_isolated (a b : text) :
  isword_opt ua (last_or None a) = false ->
  isword_opt ua (head b) = false ->
  isolated ua w a b (replace nl sp (strip (a ++ w ++ b))).
Proof.
  intros La Hb. rewrite strip_around. unfold replace at 1.
  rewrite !map_app. fold (replace nl sp (lstrip a)) (replace nl sp w)
    (replace nl sp (rstrip b)). rewrite replace_word.
  exists (replace nl sp (lstrip a)), (replace nl sp (rstrip b)).
  split; [reflexivity|].
  destruct (lstrip_decomp a) as (wa & Ea & Fa).
  destruct (rstrip_decomp b) as (wb & Eb & Fb).
  split; [|split; [|split; [|split]]].
  - unfold replace. rewrite last_or_map.
    destruct (lstrip a) as [|z la] eqn:E; [reflexivity|].
    rewrite Ea, last_or_suffix in La by discriminate.
    destruct (last_or None (z :: la)); [|reflexivity].
    simpl in *. now apply isword_replace.
  - unfold replace. destruct (rstrip b) as [|z rb] eqn:E; [reflexivity|].
    rewrite Eb in Hb. simpl in *. now apply isword_replace.
  - rewrite nonws_replace_nl. rewrite Ea at 2.
    now rewrite nonws_app, (nonws_all_space wa), app_nil_l.
  - rewrite nonws_replace_nl. rewrite Eb at 2.
    now rewrite nonws_app, (nonws_all_space wb), app_nil_r.
  - intros c (Hc & _) (a1 & ws & E & F). subst a.
    rewrite lstrip_app_solid by exact Hc. unfold replace. rewrite map_app.
    cbn [map]. eexists _, _. split.
    + f_equal. f_equal. destruct (c =? nl) eqn:En; [|reflexivity].
      apply N.eqb_eq in En. subst c. discriminate.
    + clear -F. induction F as [|y ws Hy _ IH]; [constructor|].
      cbn [map]. constructor; [|exact IH].
      destruct (y =? nl) eqn:En; [split; [reflexivity|discriminate]|].
      apply N.eqb_neq in En. now split.
Qed.

Lemma join_split sep (s : text) : join sep (split sep s) = s.
Proof.
  induction s as [|c s IH]; [reflexivity|]. simpl.
  destruct (c =? sep) eqn:E.
  - apply N.eqb_eq in E. subst c.
    rewrite join_cons by apply split_not_nil. now rewrite IH.
  - destruct (split sep s) as [|l ls] eqn:Es; [now apply split_not_nil in Es|].
    rewrite <- IH. now destruct ls.
Qed.

Lemma join_snoc_concat (P : list text) (la : text) :
  join nl (P ++ [la]) = concat (map terminated P) ++ la.
Proof.
  induction P as [|p P IH]; [reflexivity|].
  change ((p :: P) ++ [la]) with (p :: (P ++ [la])).
  rewrite join_cons by (destruct P; discriminate).
  rewrite IH. cbn [map concat]. change (terminated p) with (p ++ [nl]).
  now rewrite <- !app_assoc.
Qed.

(** A text is its complete lines followed by its last, unterminated one. *)
Lemma split_snoc_decomp (s : text) :
  exists P la,
    split nl s = P ++ [la] /\ ~ In nl la /\
    Forall (fun l => ~ In nl l) P /\
    s = concat (map terminated P) ++ la.
Proof.
  destruct (exists_last (split_not_nil nl s)) as (P & la & E).
  exists P, la. pose proof (split_no_sep nl s) as F. rewrite E in F.
  apply List.Forall_app in F. destruct F as [FP Fl].
  split; [exact E|]. split; [now inversion Fl|]. split; [exact FP|].
  rewrite <- join_snoc_concat, <- E. symmetry. apply join_split.
Qed.

Lemma split_lines_app (P : list text) (s : text) :
  Forall (fun l => ~ In nl l) P ->
  split nl (concat (map terminated P) ++ s) = P ++ split nl s.
Proof.
  induction 1 as [|p P Hp _ IH]; [reflexivity|].
  cbn [map concat]. change (terminated p) with (p ++ [nl]).
  rewrite <- !app_assoc.
  rewrite split_app_no_sep by exact Hp. cbn [app split].
  rewrite N.eqb_refl, IH. now rewrite app_nil_r.
Qed.

Lemma lines_end (P : list text) :
  concat (map terminated P) = [] \/
  exists A, concat (map terminated P) = A ++ [nl].
Proof.
  destruct P as [|p P] using rev_ind; [now left|]. right.
  rewrite map_app, concat_app. cbn [map concat].
  change (terminated p) with (p ++ [nl]).
  rewrite app_nil_r, app_assoc. eauto.
Qed.

Lemma nonws_terminated (ls : list text) :
  nonws (concat (map terminated ls)) = nonws (concat ls).
Proof.
  induction ls as [|l ls IH]; [reflexivity|].
  cbn [map concat]. change (terminated l) with (l ++ [nl]).
  rewrite !nonws_app, IH. change (nonws [nl]) with (@nil N).
  now rewrite app_nil_r.
Qed.

Lemma word_no_nl : ~ In nl w.
Proof.
  intros H. pose proof w_word as F. unfold word in F.
  rewrite List.Forall_forall in F. apply F, word_not_space in H. discriminate.
Qed.

Lemma all_space_lines (P : list text) :
  all_space (concat (map terminated P)) -> logical_lines P = [].
Proof.
  induction P as [|p P IH]; [reflexivity|]. cbn [map concat].
  intros H. apply all_space_app in H. destruct H as [Hp HP].
  apply all_space_app in Hp. destruct Hp as [Hp _].
  rewrite logical_lines_cons, strip_all_ws by exact Hp. now apply IH.
Qed.

(** A character glued at the end of a text is glued at the end of its last
    line. *)
Lemma glued_last_line (P : list text) (la : text) c :
  isspace c = false ->
  glued c (concat (map terminated P) ++ la) -> glued c la.
Proof.
  intros Hc (x0 & ws & E & F). apply List.app_eq_app in E.
  destruct E as (l & [[E1 E2]|[E1 E2]]).
  - destruct l as [|z l]; simpl in E2.
    + exists [], ws. now rewrite <- E2.
    + exfalso. injection E2 as <- E2. subst ws.
      apply List.Forall_app in F. destruct F as [Fl _].
      destruct (lines_end P) as [En|(A & En)]; rewrite En in E1.
      * destruct x0; discriminate.
      * destruct l as [|z l] using rev_ind.
        { apply app_inj_tail in E1. destruct E1 as [_ E1]. subst c.
          discriminate. }
        { change (x0 ++ c :: l ++ [z]) with (x0 ++ (c :: l) ++ [z]) in E1.
          rewrite app_assoc in E1. apply app_inj_tail in E1.
          destruct E1 as [_ E1]. subst z. apply List.Forall_app in Fl.
          destruct Fl as [_ Fz]. inversion Fz as [|? ? [_ Hz] _]; subst.
          congruence. }
  - exists l, ws. now split.
Qed.

(** Splitting into lines, trimming, indenting and joining keeps the
    identifier isolated. *)
Lemma formatted_isolated (a0 b0 t : text) :
  isolated ua w a0 b0 t ->
  exists X Y,
    join nl (fst (indent_loop (split nl t))) ++ [nl] = X ++ w ++ Y /\
    nonws X = nonws a0 /\ nonws Y = nonws b0 /\
    (nonws a0 = [] -> X = []) /\
    forall c, plain c -> follows c a0 -> glued c X.
Proof.
  intros (a & b & -> & La & Hb & Na & Nb & G).
  destruct (split_snoc_decomp a) as (P & la & Ea & Hla & HP & Aa).
  destruct (split nl b) as [|lb Q] eqn:Eb; [now apply split_not_nil in Eb|].
  assert (Hlaw : ~ In nl (la ++ w)).
  { intros H. apply in_app_or in H. destruct H; [tauto|now apply word_no_nl]. }
  assert (Es : split nl (a ++ w ++ b) = P ++ ((la ++ w) ++ lb) :: Q).
  { rewrite Aa at 1. rewrite <- app_assoc, split_lines_app by exact HP.
    f_equal. rewrite app_assoc, split_app_no_sep by exact Hlaw.
    now rewrite Eb. }
  assert (Em : strip ((la ++ w) ++ lb) = lstrip la ++ w ++ rstrip lb).
  { rewrite <- app_assoc. apply strip_around. }
  assert (Hout : nonws (join nl (fst (indent_loop (split nl (a ++ w ++ b))))
                        ++ [nl]) = nonws (a ++ w ++ b)).
  { rewrite nonws_app, nonws_join, indent_loop_emit. cbn [fst].
    rewrite nonws_concat_emit, nonws_concat_logical, nonws_concat_split.
    change (nonws [nl]) with (@nil N). now rewrite app_nil_r. }
  rewrite Es in Hout |- *. rewrite indent_loop_emit in Hout |- *.
  cbn [fst] in Hout |- *.
  change (P ++ ((la ++ w) ++ lb) :: Q)
    with (P ++ [(la ++ w) ++ lb] ++ Q) in Hout |- *.
  rewrite !logical_lines_app in Hout |- *.
  assert (El : logical_lines [(la ++ w) ++ lb]
               = [lstrip la ++ w ++ rstrip lb]).
  { rewrite logical_lines_cons, Em.
    destruct (lstrip la ++ w ++ rstrip lb) eqn:E; [|reflexivity].
    apply app_eq_nil in E. destruct E as [_ E]. apply app_eq_nil in E.
    destruct E as [E _]. now apply w_nonnil in E. }
  rewrite El in Hout |- *. rewrite emit_app in Hout |- *.
  cbn [app emit] in Hout |- *.
  set (E1 := emit 0 (logical_lines P)) in *.
  set (ind := str_mul (str "    ")
                (emit_depth (final_depth 0 (logical_lines P))
                   (lstrip la ++ w ++ rstrip lb))) in *.
  set (E2 := emit _ (logical_lines Q)) in *.
  assert (Ej : join nl (E1 ++ (ind ++ lstrip la ++ w ++ rstrip lb) :: E2)
               ++ [nl]
               = (concat (map terminated E1) ++ ind ++ lstrip la) ++ w
                 ++ (rstrip lb ++ [nl] ++ concat (map terminated E2))).
  { rewrite join_terminated by (destruct E1; discriminate).
    fold terminated. rewrite map_app, concat_app. cbn [map concat].
    change (terminated (ind ++ lstrip la ++ w ++ rstrip lb))
      with ((ind ++ lstrip la ++ w ++ rstrip lb) ++ [nl]).
    now rewrite <- !app_assoc. }
  rewrite Ej in Hout |- *. clear Ej.
  assert (NX : nonws (concat (map terminated E1) ++ ind ++ lstrip la)
               = nonws a).
  { rewrite !nonws_app, nonws_terminated. subst E1 ind.
    rewrite nonws_concat_emit, nonws_concat_logical.
    rewrite (nonws_all_space _ (str_mul_all_space _)). cbn [app].
    rewrite Aa. rewrite nonws_app, nonws_terminated. f_equal.
    destruct (lstrip_decomp la) as (wl & El' & Fl). rewrite El' at 2.
    now rewrite nonws_app, (nonws_all_space wl), app_nil_l. }
  assert (GX : forall c, plain c -> follows c a0 ->
               glued c (concat (map terminated E1) ++ ind ++ lstrip la)).
  { intros c Hc Hf. specialize (G c Hc Hf). destruct Hc as (Hc & _).
    rewrite Aa in G. apply glued_last_line in G; [|exact Hc].
    destruct G as (x0 & ws & -> & F).
    rewrite lstrip_app_solid by exact Hc.
    exists (concat (map terminated E1) ++ ind ++ lstrip x0), ws.
    split; [now rewrite <- !app_assoc|exact F]. }
  assert (ZX : nonws a0 = [] ->
               concat (map terminated E1) ++ ind ++ lstrip la = []).
  { intros Hz. rewrite <- Na in Hz. apply nonws_nil_all_space in Hz.
    rewrite Aa in Hz. apply all_space_app in Hz. destruct Hz as [HzP Hzl].
    subst E1 ind. rewrite (all_space_lines P HzP).
    rewrite lstrip_all_ws by exact Hzl.
    cbn [emit map concat final_depth fold_left app]. rewrite app_nil_r.
    unfold emit_depth. now destruct (startswith rbrace (w ++ rstrip lb)). }
  set (X := concat (map terminated E1) ++ ind ++ lstrip la) in *.
  set (Y := rstrip lb ++ [nl] ++ concat (map terminated E2)) in *.
  exists X, Y. split; [reflexivity|]. split; [now rewrite NX|].
  split; [|split; [exact ZX|exact GX]].
  rewrite <- Nb. rewrite !nonws_app, NX in Hout.
  now do 2 apply app_inv_head in Hout.
Qed.


End Transform.

(** *** Boundary anchoring of the keyword rules *)

Lemma kw_pattern_anchored r prev (s : text) n :
  kw_pattern r -> match_here ua r prev s = Some n ->
  isword_opt ua prev = false /\
  exists k y rest, In k keywords /\ s = k ++ y :: rest /\ isspace y = true.
Proof.
  intros (k & r' & -> & Hk & _) M. cbn [match_here] in M.
  destruct (at_boundary ua prev (head s)) eqn:B; [|discriminate].
  destruct (strip_prefix k s) as [s1|] eqn:P; [|discriminate].
  apply strip_prefix_spec in P. subst s.
  apply option_map_Some in M. destruct M as (n1 & M & _).
  cbn [at_least] in M. destruct s1 as [|y rest]; [discriminate|].
  destruct (isspace y) eqn:Hy; [|discriminate]. split.
  - pose proof (keyword_word k Hk) as Wk.
    destruct k as [|x k]; [destruct Hk as [H|[H|[H|[H|[H|[H|[H|[H|[H|[H|[]]]]]]]]]]];
      discriminate|].
    inversion Wk as [|? ? Hx _]; subst. unfold at_boundary in B. simpl in B.
    rewrite Hx in B. now destruct (isword_opt ua prev).
  - now exists k, y, rest.
Qed.

Lemma keyword_rules_patterns :
  Forall (fun pr => kw_pattern (fst pr)) keyword_rules.
Proof.
  unfold keyword_rules, replacements. cbn [List.filter fst].
  repeat (apply List.Forall_cons;
    [ cbn [fst]; eexists _, _; split; [reflexivity|]; split; [in_keywords|];
      simpl; repeat split; in_keywords | ]).
  apply List.Forall_nil.
Qed.

End Isolation.

(** C4 (amended): keyword isolation.  Word characters are those of the regex
    class [\w]; the table of the runtime is assumed to count no whitespace
    code point as alphanumeric.  A keyword rule matches only where the
    character before is no word character and the keyword is followed by
    whitespace.  Hence, when the input holds an identifier [w] (a maximal run
    of word characters) that is not itself a keyword, whether or not a
    keyword is part of it, and the input is rewritten, the output holds [w]
    in one piece, between a rewriting of what was before and a rewriting of
    what was after (same non-whitespace characters).  When nothing but
    whitespace is before [w], it starts the output; and when the last
    non-whitespace character before [w] is neither a brace nor a semicolon,
    [w] is still on the line of that character: the only line breaks put
    before the identifier are those that follow [{], [}] and [;]. *)
Theorem keyword_isolation (ua : char -> bool) (a w b : text) :
  (forall c, isspace c = true -> isword ua c = false) ->
  word ua w -> w <> [] -> ~ In w keywords ->
  isword_opt ua (last_or None a) = false ->
  isword_opt ua (head b) = false ->
  snd (reformat ua (a ++ w ++ b)) = true ->
  (forall r repl prev (s : text) n,
     In (r, repl) keyword_rules -> match_here ua r prev s = Some n ->
     isword_opt ua prev = false /\
     exists k y rest,
       In k keywords /\ s = k ++ y :: rest /\ isspace y = true) /\
  exists X Y,
    fst (reformat ua (a ++ w ++ b)) = X ++ w ++ Y /\
    ~ In nl w /\
    nonws X = nonws a /\ nonws Y = nonws b /\
    (all_space a -> X = []) /\
    forall c, plain c -> follows c a -> glued c X.
Proof.
  intros Hsw Hw Hne Hkw La Hb Hch. split.
  - intros r repl prev s n Hin M.
    pose proof (keyword_rules_patterns) as F. rewrite List.Forall_forall in F.
    apply (kw_pattern_anchored ua r prev s n (F _ Hin) M).
  - apply changed_iff in Hch. rewrite reformat_changed by exact Hch.
    cbn [fst]. unfold format_content, format_lines.
    destruct (formatted_isolated ua Hsw w Hw Hne a b
                (re_sub ua [Newlines 3] [nl; nl]
                   (apply_replacements ua replacements
                      (replace nl sp (strip (a ++ w ++ b))))))
      as (X & Y & E & NX & NY & ZX & G).
    + apply re_sub_isolated; try assumption; [apply compaction_ok; exact Hsw|].
      apply apply_replacements_isolated; try assumption;
        [apply replacements_ok; exact Hsw|].
      now apply flattened_isolated.
    + exists X, Y. split; [exact E|]. split; [now apply (word_no_nl ua Hsw w)|].
      split; [exact NX|]. split; [exact NY|]. split; [|exact G].
      intros Ha. apply ZX. now apply nonws_all_space.
Qed.

(** ** Instances *)

(** C1, as stated, fails: ["a\nb\nc\nd\ne\n"] contains a newline and splits
    into 6 pieces, yet it is rewritten, because the test counts the pieces of
    the stripped text, which are 5. *)
Lemma skip_guard_counts_stripped_lines :
  contains nl five_terminated_lines = true /\
  (5 < List.length (split nl five_terminated_lines))%nat /\
  snd (reformat ascii_table five_terminated_lines) = true /\
  fst (reformat ascii_table five_terminated_lines) <> five_terminated_lines.
Proof.
  split; [reflexivity|]. split; [vm_compute; lia|].
  split; [reflexivity|]. vm_compute. discriminate.
Qed.

(** C6, as stated, fails: a skipped input is the output, and it may hold a
    run of three newlines. *)
Lemma skipped_output_keeps_blank_run :
  reformat ascii_table six_lines_with_blank_run
    = (six_lines_with_blank_run, false) /\
  has_run nl 3 (fst (reformat ascii_table six_lines_with_blank_run)).
Proof.
  split; [reflexivity|].
  exists (str "a"), (join nl [str "b"; str "c"; str "d"]). reflexivity.
Qed.


Lemma no_blank_line_runs_when_changed_witness :
  snd (reformat ascii_table (str "a{}}")) = true /\
  ~ has_run nl 3 (fst (reformat ascii_table (str "a{}}"))).
Proof.
  split; [reflexivity|].
  apply (no_blank_line_runs_when_changed ascii_table (str "a{}}")).
  reflexivity.
Defined.

Lemma whitespace_only_input_witness :
  all_space [sp; nl; 9] /\ reformat ascii_table [sp; nl; 9] = ([nl], true).
Proof.
  assert (H : all_space [sp; nl; 9]) by (repeat constructor).
  split; [exact H|]. exact (whitespace_only_input ascii_table _ H).
Defined.

Lemma padding_invariance_witness :
  all_space [nl; sp] /\ all_space [sp; nl] /\
  snd (reformat ascii_table ([nl; sp] ++ str "a{b;}" ++ [sp; nl]))
    = snd (reformat ascii_table (str "a{b;}")) /\
  fst (reformat ascii_table ([nl; sp] ++ str "a{b;}" ++ [sp; nl]))
    = fst (reformat ascii_table (str "a{b;}")).
Proof.
  assert (H1 : all_space [nl; sp]) by (repeat constructor).
  assert (H2 : all_space [sp; nl]) by (repeat constructor).
  split; [exact H1|]. split; [exact H2|].
  destruct (padding_invariance ascii_table (str "a{b;}") _ _ H1 H2) as [F G].
  split; [exact F|]. apply G. reflexivity.
Defined.

Lemma writer_output_witness :
  reformat_java_file ascii_table foo_fs "Foo.java"
    = Some (<["Foo.java"%string := DiskFile (Some foo_formatted) true]> foo_fs,
            true) /\
  (<["Foo.java"%string := DiskFile (Some foo_formatted) true]> foo_fs)
    !! "Foo.java"%string
    = Some (DiskFile
              (Some (join nl (format_lines ascii_table (strip (str "class A{}")))
                     ++ [nl])) true).
Proof.
  assert (H : reformat_java_file ascii_table foo_fs "Foo.java"
              = Some (<["Foo.java"%string
                          := DiskFile (Some foo_formatted) true]> foo_fs, true))
    by reflexivity.
  split; [exact H|].
  destruct (writer_output ascii_table _ _ _ H)
    as (f & t & Hf & Ht & _ & _ & E & _).
  unfold foo_fs in Hf. rewrite lookup_singleton_eq in Hf.
  injection Hf as <-. injection Ht as <-. exact E.
Defined.

Lemma ascii_table_space_not_word :
  forall c, isspace c = true -> isword ascii_table c = false.
Proof.
  intros c H. apply not_true_is_false. intros W.
  unfold isword, ascii_table, ascii_alnum, isspace, underscore in *.
  destruct (c <? 128) eqn:E.
  - apply N.ltb_lt in E.
    rewrite ?orb_true_iff, ?andb_true_iff, ?N.leb_le, ?N.eqb_eq in *. lia.
  - apply N.ltb_ge in E.
    rewrite ?orb_true_iff, ?andb_true_iff, ?N.leb_le, ?N.eqb_eq in *. lia.
Qed.

Lemma keyword_isolation_witness :
  fst (reformat ascii_table (str "int " ++ str "finalScore" ++ str " = 0;"))
    = str "int finalScore = 0;" ++ [nl] /\
  exists X Y,
    fst (reformat ascii_table (str "int " ++ str "finalScore" ++ str " = 0;"))
      = X ++ str "finalScore" ++ Y /\
    glued 116 X.
Proof.
  split; [reflexivity|].
  assert (Hw : word ascii_table (str "finalScore")) by (repeat constructor).
  assert (Hne : str "finalScore" <> []) by (vm_compute; discriminate).
  assert (Hk : ~ In (str "finalScore") keywords)
    by (vm_compute; intuition discriminate).
  destruct (keyword_isolation ascii_table (str "int ") (str "finalScore")
              (str " = 0;") ascii_table_space_not_word Hw Hne Hk
              eq_refl eq_refl eq_refl)
    as (_ & X & Y & E & _ & _ & _ & _ & G).
  exists X, Y. split; [exact E|]. apply G.
  - unfold plain, lbrace, rbrace, semi. split; [reflexivity|]. lia.
  - exists (str "in"), [sp]. split; [reflexivity|]. repeat constructor.
Defined.

(** C4, as stated, fails: after a semicolon (or a brace) a line break is put
    before the identifier, by the rule of the semicolon; and a Java
    identifier with a [$] before a keyword is broken at the keyword, since
    [$] is no word character for [\b]. *)
Lemma line_break_before_identifier_after_semicolon :
  word ascii_table (str "finalScore") /\
  ~ In (str "finalScore") keywords /\
  reformat ascii_table (str "x;" ++ str "finalScore")
    = (str "x;" ++ [nl] ++ str "finalScore" ++ [nl], true) /\
  reformat ascii_table (str "my$class x")
    = (str "my$" ++ [nl] ++ str "class x" ++ [nl], true).
Proof.
  split; [repeat constructor|].
  split; [vm_compute; intuition discriminate|]. split; reflexivity.
Qed.

(** ** The script *)

Lemma readlines_concat (t : text) : concat (readlines t) = t.
Proof.
  induction t as [|c t IH]; [reflexivity|]. simpl.
  destruct (c =? nl) eqn:E.
  - apply N.eqb_eq in E. subst c. simpl. now rewrite IH.
  - destruct (readlines t) as [|l ls]; simpl in *; now rewrite <- IH.
Qed.

Lemma sum_len_from (ls : list text) n :
  fold_left (fun acc line => (acc + List.length line)%nat) ls n
  = (n + List.length (concat ls))%nat.
Proof.
  revert n. induction ls as [|l ls IH]; intros n; simpl; [lia|].
  rewrite IH, List.length_app. lia.
Qed.

Lemma sum_len_readlines (t : text) : sum_len (readlines t) = List.length t.
Proof. unfold sum_len. now rewrite sum_len_from, readlines_concat. Qed.

Lemma readlines_count (t : text) :
  (count nl t <= List.length (readlines t) <= S (count nl t))%nat.
Proof.
  induction t as [|c t IH]; [simpl; unfold count; simpl; lia|].
  rewrite count_cons, (N.eqb_sym nl c). cbn [readlines].
  destruct (c =? nl); [simpl; lia|].
  destruct (readlines t); simpl in *; lia.
Qed.

Lemma readlines_lines (t : text) :
  Forall (fun l => exists body,
            ~ In nl body /\ (l = body ++ [nl] \/ (l = body /\ body <> [])))
    (readlines t).
Proof.
  induction t as [|c t IH]; [constructor|]. simpl.
  destruct (c =? nl) eqn:E.
  - apply N.eqb_eq in E. subst c. constructor; [|exact IH].
    exists []. split; [tauto|now left].
  - apply N.eqb_neq in E. destruct (readlines t) as [|l ls].
    + constructor; [|constructor]. exists [c].
      split; [intros [H|[]]; congruence|]. right. split; [reflexivity|discriminate].
    + inversion IH as [|? ? (body & Hb & Hl) Hls]; subst.
      constructor; [|exact Hls]. exists (c :: body).
      split; [intros [H|H]; [congruence|tauto]|].
      destruct Hl as [-> | [-> Hne]]; [now left|right].
      split; [reflexivity|discriminate].
Qed.

Lemma count_app_nl c (a b : text) :
  count c (a ++ b) = (count c a + count c b)%nat.
Proof. unfold count. now rewrite List.filter_app, List.length_app. Qed.

Lemma count_strip_le c (t : text) : (count c (strip t) <= count c t)%nat.
Proof.
  destruct (strip_decomp t) as (w1 & w2 & E & _). rewrite E at 2.
  rewrite !count_app_nl. lia.
Qed.

Lemma few_lines_not_skipped (t : text) :
  (List.length (readlines t) <= 3)%nat -> already_formatted (strip t) = false.
Proof.
  intros H. unfold already_formatted. apply andb_false_iff. right.
  apply Nat.ltb_ge. rewrite split_length.
  pose proof (count_strip_le nl t). pose proof (readlines_count t). lia.
Qed.

Lemma string_length_append (a b : string) :
  String.length (a ++ b) = (String.length a + String.length b)%nat.
Proof. induction a as [|c a IH]; simpl; [reflexivity|now rewrite IH]. Qed.

Lemma substring_append_skip (a b : string) n m :
  String.substring (String.length a + n) m (a ++ b) = String.substring n m b.
Proof. induction a as [|c a IH]; simpl; [reflexivity|exact IH]. Qed.

Lemma name_endswith_append suffix (a b : string) :
  name_endswith suffix b = true -> name_endswith suffix (a ++ b) = true.
Proof.
  unfold name_endswith. rewrite !andb_true_iff, !Nat.leb_le.
  rewrite string_length_append. intros [L E]. split; [lia|].
  replace (String.length a + String.length b - String.length suffix)%nat
    with (String.length a + (String.length b - String.length suffix))%nat
    by lia.
  now rewrite substring_append_skip.
Qed.

(** A joined path ends like its last component. *)
Lemma path_join_endswith suffix (root file : string) :
  name_endswith suffix file = true ->
  name_endswith suffix (path_join root file) = true.
Proof.
  intros H. unfold path_join.
  destruct (String.prefix "/" file); [exact H|].
  destruct (_ || _); [now apply name_endswith_append|].
  apply name_endswith_append. now apply (name_endswith_append suffix "/").
Qed.

Lemma java_paths_java walk (p : string) :
  In p (java_paths walk) -> name_endswith ".java" p = true.
Proof.
  unfold java_paths. rewrite in_flat_map. intros (e & _ & H).
  apply in_map_iff in H. destruct H as (f & <- & H).
  apply List.filter_In in H. now apply path_join_endswith.
Qed.

Section ScriptFacts.
Variable ua : char -> bool.

(** What one visit does to a file that opens and decodes. *)
Lemma visit_path_selected fs acc (p : string) (f : disk_file) (t : text) :
  fs !! p = Some f -> decoded f = Some t ->
  visit_path ua (fs, acc) p =
    if selected t
    then if writable f
         then Some (<[p := DiskFile (Some (format_content ua (strip t))) true]> fs,
                    acc ++ [p])
         else None
    else Some (fs, acc).
Proof.
  intros E D. unfold visit_path, selected. rewrite E.
  cbn [mbind option_bind]. rewrite D. cbn [mbind option_bind].
  rewrite sum_len_readlines.
  destruct (List.length (readlines t) <=? 3)%nat eqn:L; [|reflexivity].
  destruct (200 <? List.length t)%nat; [|reflexivity]. cbn [andb].
  rewrite (reformat_java_file_reformat ua fs p f t E D). unfold reformat.
  rewrite few_lines_not_skipped by now apply Nat.leb_le. cbn [fst snd].
  now destruct (writable f).
Qed.


(** A visit that does not fail leaves the state as it is, or rewrites the
    file, which could be written. *)
Lemma visit_path_cases fs acc (p : string) fs' acc' :
  visit_path ua (fs, acc) p = Some (fs', acc') ->
  exists (f : disk_file) (t : text),
    fs !! p = Some f /\ decoded f = Some t /\
    ((selected t = false /\ fs' = fs /\ acc' = acc) \/
     (selected t = true /\ writable f = true /\
      fs' = <[p := DiskFile (Some (format_content ua (strip t))) true]> fs /\
      acc' = acc ++ [p])).
Proof.
  intros V.
  destruct (fs !! p) as [f|] eqn:E;
    [|unfold visit_path in V; rewrite E in V; discriminate V].
  destruct (decoded f) as [t|] eqn:D;
    [|unfold visit_path in V; rewrite E in V; cbn [mbind option_bind] in V;
      rewrite D in V; discriminate V].
  rewrite (visit_path_selected fs acc p f t E D) in V.
  exists f, t. split; [reflexivity|]. split; [exact D|].
  destruct (selected t); [|injection V as <- <-; now left].
  destruct (writable f); [|discriminate V].
  injection V as <- <-. right. now repeat split.
Qed.

Lemma visit_all_none ps : visit_all ua ps None = None.
Proof. unfold visit_all. induction ps; [reflexivity|assumption]. Qed.

Lemma visit_all_app ps qs st :
  visit_all ua (ps ++ qs) st = visit_all ua qs (visit_all ua ps st).
Proof. unfold visit_all. apply fold_left_app. Qed.

Lemma visit_files root files st :
  fold_left (visit_file ua root) files st =
    visit_all ua (map (path_join root)
                    (List.filter (name_endswith ".java") files)) st.
Proof.
  revert st. induction files as [|f files IH]; intros st; [reflexivity|].
  cbn [fold_left List.filter]. rewrite IH. unfold visit_file.
  destruct st as [st|].
  - destruct (name_endswith ".java" f); reflexivity.
  - rewrite !visit_all_none. reflexivity.
Qed.

(** The nested loops visit the paths of [java_paths], in order. *)
Lemma main_loop_paths walk fs :
  main_loop ua walk fs = visit_all ua (java_paths walk) (Some (fs, [])).
Proof.
  unfold main_loop. generalize (Some (fs, @nil string)).
  induction walk as [|e walk IH]; intros st; [reflexivity|].
  cbn [fold_left java_paths flat_map]. rewrite visit_all_app, IH.
  now rewrite visit_files.
Qed.

(** One visit keeps every other file, creates and deletes none, and adds at
    most the visited path to the list. *)
Lemma visit_path_frame fs acc (p : string) fs' acc' :
  visit_path ua (fs, acc) p = Some (fs', acc') ->
  (forall q, q <> p -> fs' !! q = fs !! q) /\
  (forall q, is_Some (fs' !! q) <-> is_Some (fs !! q)) /\
  (acc' = acc \/ acc' = acc ++ [p]).
Proof.
  intros V. destruct (visit_path_cases _ _ _ _ _ V)
    as (f & t & E & D & [(_ & -> & ->)|(_ & _ & -> & ->)]).
  - split; [reflexivity|]. split; [reflexivity|now left].
  - split; [intros q Hq; now apply lookup_insert_ne|]. split; [|now right].
    intros q. destruct (String.string_dec p q) as [<- | Hq].
    + rewrite lookup_insert_eq, E. split; eauto.
    + now rewrite lookup_insert_ne.
Qed.


Lemma visit_all_frame ps :
  forall fs acc fs' acc',
    visit_all ua ps (Some (fs, acc)) = Some (fs', acc') ->
    (forall q, ~ In q ps -> fs' !! q = fs !! q) /\
    (forall q, is_Some (fs' !! q) <-> is_Some (fs !! q)) /\
    (exists added, acc' = acc ++ added /\ forall q, In q added -> In q ps).
Proof.
  induction ps as [|p ps IH]; intros fs acc fs' acc' H.
  - injection H as <- <-. split; [reflexivity|]. split; [reflexivity|].
    exists []. now rewrite app_nil_r.
  - change (visit_all ua (p :: ps) (Some (fs, acc)))
      with (visit_all ua ps (visit_path ua (fs, acc) p)) in H.
    destruct (visit_path ua (fs, acc) p) as [[fs1 acc1]|] eqn:V;
      [|rewrite visit_all_none in H; discriminate].
    destruct (visit_path_frame _ _ _ _ _ V) as (F1 & D1 & A1).
    destruct (IH _ _ _ _ H) as (F2 & D2 & added & A2 & I2).
    split; [|split].
    + intros q Hq. rewrite F2 by (intros Hin; apply Hq; now right).
      apply F1. intros ->. apply Hq. now left.
    + intros q. now rewrite D2, D1.
    + destruct A1 as [-> | ->].
      * exists added. split; [exact A2|]. intros q Hin. right. now apply I2.
      * exists (p :: added). rewrite A2, <- app_assoc. split; [reflexivity|].
        intros q [<- | Hin]; [now left|right; now apply I2].
Qed.





End ScriptFacts.

(** ** Properties of the script *)

(** X2: [readlines] cuts the text into its physical lines without losing a
    character: the lines concatenate to the text, so the character count the
    selector sums is the length of the text; every line is some characters
    other than newline followed by one newline, but for a last line, which
    may lack it; and there are as many lines as newlines, or one more. *)
Theorem readlines_partition (t : text) :
  concat (readlines t) = t /\
  sum_len (readlines t) = List.length t /\
  (count nl t <= List.length (readlines t) <= S (count nl t))%nat /\
  Forall (fun l => exists body,
            ~ In nl body /\ (l = body ++ [nl] \/ (l = body /\ body <> [])))
    (readlines t).
Proof.
  split; [apply readlines_concat|]. split; [apply sum_len_readlines|].
  split; [apply readlines_count|apply readlines_lines].
Qed.

Section ScriptProperties.
Variable ua : char -> bool.



(** X5: what the script never does.  Whenever it ends normally, a file whose
    path does not end in [.java] is as before, no file is created or deleted,
    and every path in [reformatted] is a visited path ending in [.java]. *)
Theorem script_frame (walk : list (string * list string * list string))
  (fs fs' : gmap string disk_file) (reformatted : list string) :
  main_loop ua walk fs = Some (fs', reformatted) ->
  (forall p, name_endswith ".java" p = false -> fs' !! p = fs !! p) /\
  (forall p, is_Some (fs' !! p) <-> is_Some (fs !! p)) /\
  (forall p, In p reformatted ->
     In p (java_paths walk) /\ name_endswith ".java" p = true).
Proof.
  rewrite main_loop_paths. intros H.
  destruct (visit_all_frame ua _ _ _ _ _ H) as (F & D & added & E & I).
  simpl in E. subst reformatted. split; [|split; [exact D|]].
  - intros p Hp. apply F. intros Hin.
    apply (java_paths_java walk) in Hin. congruence.
  - intros p Hp. split; [now apply I|].
    apply (java_paths_java walk). now apply I.
Qed.

End ScriptProperties.




Lemma script_frame_witness :
  exists fs',
    main_loop ascii_table demo_walk demo_fs
      = Some (fs', ["src/main/java/Foo.java"%string]) /\
    fs' !! "src/main/java/notes.txt"%string = Some (DiskFile None false) /\
    fs' !! "src/main/java/Baz.java"%string = None.
Proof.
  destruct (main_loop ascii_table demo_walk demo_fs) as [[fs' r]|] eqn:E;
    [|vm_compute in E; discriminate E].
  assert (Er : r = ["src/main/java/Foo.java"%string]).
  { assert (H : option_map snd (main_loop ascii_table demo_walk demo_fs)
                = Some ["src/main/java/Foo.java"%string]) by (vm_compute; reflexivity).
    rewrite E in H. now injection H. }
  subst r. exists fs'. split; [reflexivity|].
  destruct (script_frame ascii_table demo_walk demo_fs fs' _ E) as (F & D & _).
  split.
  - rewrite F; reflexivity.
  - destruct (fs' !! "src/main/java/Baz.java"%string) eqn:L; [|reflexivity].
    assert (S1 : is_Some (demo_fs !! "src/main/java/Baz.java"%string))
      by (apply D; rewrite L; eauto).
    destruct S1 as [x Hx]. vm_compute in Hx. discriminate Hx.
Defined.

(** ** The written text, read again *)

Lemma readlines_line (l rest : text) :
  ~ In nl l -> readlines (l ++ nl :: rest) = (l ++ [nl]) :: readlines rest.
Proof.
  intros Hl. induction l as [|c l IHl]; [reflexivity|].
  cbn [app readlines]. destruct (c =? nl) eqn:E.
  - apply N.eqb_eq in E. exfalso. apply Hl. now left.
  - rewrite IHl; [reflexivity|]. intros Hin. apply Hl. now right.
Qed.

Lemma readlines_terminated (ls : list text) :
  Forall (fun l => ~ In nl l) ls ->
  readlines (concat (map terminated ls)) = map terminated ls.
Proof.
  induction 1 as [|l ls Hl _ IH]; [reflexivity|].
  cbn [map concat]. unfold terminated at 1. rewrite <- app_assoc.
  cbn [app]. rewrite readlines_line by exact Hl. now rewrite IH.
Qed.

Lemma rstrip_snoc_nonws (s : text) c :
  isspace c = false -> rstrip (s ++ [c]) = s ++ [c].
Proof.
  intros H. unfold rstrip. rewrite rev_app_distr. simpl. rewrite H.
  change (c :: rev s) with ([c] ++ rev s)%list.
  now rewrite rev_app_distr, rev_involutive.
Qed.

Lemma strip_trimmed (s : text) : trimmed s -> strip s = s.
Proof.
  intros [Hh Hl]. unfold strip. destruct s as [|c r]; [reflexivity|].
  rewrite (lstrip_nonws_head c r (Hh c r eq_refl)).
  destruct (exists_last (l := c :: r)) as (r' & d & E); [discriminate|].
  rewrite E. apply rstrip_snoc_nonws. now apply (Hl r' d).
Qed.

Lemma strip_is_trimmed (s : text) : trimmed (strip s).
Proof.
  split.
  - intros c r E. now apply (strip_head s r c).
  - intros r c E. now apply (strip_last s r c).
Qed.

Lemma logical_lines_trimmed (lines : list text) :
  Forall trimmed (logical_lines lines).
Proof.
  unfold logical_lines. apply List.Forall_forall. intros l Hl.
  apply List.filter_In in Hl. destruct Hl as [Hl _].
  apply List.in_map_iff in Hl. destruct Hl as (x & <- & _).
  apply strip_is_trimmed.
Qed.

(** The joined lines end with the end of one of the lines. *)
Lemma join_emit_end d (ls : list text) :
  ls <> [] -> exists pre l, In l ls /\ join nl (emit d ls) = pre ++ l.
Proof.
  revert d. induction ls as [|l ls IH]; intros d Hne; [congruence|].
  destruct ls as [|l' ls'].
  - exists (str_mul (str "    ") (emit_depth d l)), l. split; [now left|].
    reflexivity.
  - destruct (IH (next_depth d l)) as (pre & x & Hx & E); [discriminate|].
    exists ((str_mul (str "    ") (emit_depth d l) ++ l) ++ nl :: pre), x.
    split; [now right|].
    cbn [emit]. cbn [emit] in E. rewrite join_cons by discriminate.
    rewrite E. now rewrite <- !app_assoc.
Qed.

Lemma join_emit_trimmed (ls : list text) :
  Forall trimmed ls -> Forall (fun l => l <> []) ls ->
  trimmed (join nl (emit 0 ls)).
Proof.
  intros Ht Hne. destruct ls as [|l ls]; [split; intros; [discriminate|]|].
  { destruct r; discriminate. }
  split.
  - intros c r E.
    assert (Ed : emit_depth 0 l = 0%Z)
      by (unfold emit_depth; destruct (startswith rbrace l); reflexivity).
    apply List.Forall_inv in Ht, Hne. destruct l as [|x l]; [congruence|].
    assert (Ej : exists rest, join nl (emit 0 ((x :: l) :: ls)) = x :: rest).
    { cbn [emit]. rewrite Ed.
      destruct (emit (next_depth 0 (x :: l)) ls) as [|y ys];
        [now exists l|].
      rewrite join_cons by discriminate. now eexists. }
    destruct Ej as (rest & Ej). rewrite Ej in E. injection E as <- _.
    now apply (proj1 Ht x l).
  - intros r c E.
    destruct (join_emit_end 0 (l :: ls)) as (pre & x & Hx & Ex);
      [discriminate|].
    rewrite Ex in E.
    pose proof (proj1 (List.Forall_forall _ _) Ht x Hx) as Htx.
    pose proof (proj1 (List.Forall_forall _ _) Hne x Hx) as Hnx.
    destruct (exists_last Hnx) as (x' & d & ->).
    rewrite app_assoc in E. apply app_inj_tail in E. destruct E as [_ <-].
    now apply (proj2 Htx x' d).
Qed.

Section WrittenText.
Variable ua : char -> bool.

Lemma format_lines_trimmed (c : text) :
  trimmed (join nl (format_lines ua c)).
Proof.
  destruct (format_lines_emit ua c) as (lines & _ & ->).
  apply join_emit_trimmed;
    [apply logical_lines_trimmed|apply logical_lines_nonempty].
Qed.

Lemma strip_format_content (c : text) :
  strip (format_content ua c) = join nl (format_lines ua c).
Proof.
  unfold format_content.
  change (join nl (format_lines ua c) ++ [nl])
    with ([] ++ join nl (format_lines ua c) ++ [nl])%list.
  rewrite strip_pad; [|constructor|repeat constructor].
  apply strip_trimmed, format_lines_trimmed.
Qed.

End WrittenText.

Section SecondRun.
Variable ua : char -> bool.

(** X6: what a reader of the written file finds.  Its physical lines are the
    formatted lines, each with its newline; stripped, the text is the
    formatted lines joined by newlines, and splits back into them.  A file
    written from no line at all holds a single newline, read as one empty
    line. *)
Theorem written_lines_read_back (c : text) :
  readlines (format_content ua c)
    = map terminated (written_lines (format_lines ua c)) /\
  strip (format_content ua c) = join nl (format_lines ua c) /\
  split nl (strip (format_content ua c)) = written_lines (format_lines ua c).
Proof.
  pose proof (format_lines_shape ua c) as Hs.
  assert (Hnl : Forall (fun l : text => ~ In nl l) (format_lines ua c))
    by (eapply List.Forall_impl; [|exact Hs]; simpl; tauto).
  split; [|split; [apply strip_format_content|]].
  - unfold format_content.
    destruct (format_lines ua c) as [|l ls] eqn:E; [reflexivity|].
    rewrite join_terminated by discriminate.
    now apply readlines_terminated.
  - rewrite strip_format_content.
    destruct (format_lines ua c) as [|l ls] eqn:E; [reflexivity|].
    apply split_join; [discriminate|exact Hnl].
Qed.

(** X7: a second call on a file the function has written with more than 5
    lines changes nothing and returns [False], and the script does not select
    such a file again. *)
Theorem second_call_skips (c : text) :
  (5 < List.length (format_lines ua c))%nat ->
  reformat ua (format_content ua c) = (format_content ua c, false) /\
  selected (format_content ua c) = false.
Proof.
  intros H.
  pose proof (format_lines_shape ua c) as Hs.
  assert (Hnl : Forall (fun l : text => ~ In nl l) (format_lines ua c))
    by (eapply List.Forall_impl; [|exact Hs]; simpl; tauto).
  assert (Hne : format_lines ua c <> [])
    by (destruct (format_lines ua c); [simpl in H; lia|discriminate]).
  split.
  - apply reformat_skipped, already_formatted_lines.
    rewrite strip_format_content, split_join by assumption. exact H.
  - unfold selected, format_content.
    rewrite join_terminated, readlines_terminated, length_map by assumption.
    apply andb_false_iff. left. apply Nat.leb_gt. lia.
Qed.

End SecondRun.

Lemma second_call_skips_witness :
  (5 < List.length (format_lines ascii_table scenario_class))%nat /\
  reformat ascii_table (format_content ascii_table scenario_class)
    = (join nl (map render scenario_lines) ++ [nl], false).
Proof.
  assert (H : (5 < List.length (format_lines ascii_table scenario_class))%nat)
    by (vm_compute; lia).
  split; [exact H|].
  destruct (second_call_skips ascii_table scenario_class H) as [R _].
  rewrite R. reflexivity.
Defined.

(** ** The compaction of blank lines *)

Lemma split_app_sep sep (a b : text) :
  split sep (a ++ sep :: b) = split sep a ++ split sep b.
Proof.
  induction a as [|c a IH]; cbn [app split].
  - now rewrite N.eqb_refl.
  - rewrite IH. destruct (c =? sep); [reflexivity|].
    pose proof (split_not_nil sep a) as Hne.
    destruct (split sep a) as [|l ls]; [congruence|reflexivity].
Qed.

Lemma split_newlines k (b : text) :
  split nl (repeat nl k ++ b) = repeat [] k ++ split nl b.
Proof. induction k as [|k IH]; [reflexivity|]. simpl. now rewrite IH. Qed.

Lemma filter_nonempty_blank k (ls : list text) :
  List.filter nonempty (repeat [] k ++ ls) = List.filter nonempty ls.
Proof. induction k as [|k IH]; [reflexivity|exact IH]. Qed.

Lemma logical_lines_filter (ls : list text) :
  logical_lines (List.filter nonempty ls) = logical_lines ls.
Proof.
  induction ls as [|l ls IH]; [reflexivity|].
  destruct l as [|x l]; cbn [List.filter nonempty].
  - rewrite IH. now rewrite (logical_lines_cons [] ls).
  - now rewrite !logical_lines_cons, IH.
Qed.

Lemma all_newlines (l : text) :
  Forall (fun c => (nl =? c) = true) l -> l = repeat nl (List.length l).
Proof.
  induction 1 as [|c l Hc _ IH]; [reflexivity|].
  apply N.eqb_eq in Hc. subst c. simpl. now rewrite <- IH.
Qed.

Section Compaction.
Variable ua : char -> bool.

(** A match of [\n{m,}] is a run of newlines. *)
Lemma newlines_match m prev (s : text) n :
  match_here ua [Newlines m] prev s = Some n ->
  (m <= n)%nat /\ s = repeat nl n ++ skipn n s.
Proof.
  cbn [match_here]. intros M. apply at_least_spec in M.
  destruct M as (j & prev' & H1 & H2 & H3 & H4 & H5).
  injection H5 as H5. assert (n = j) by lia. subst j. split; [exact H1|].
  rewrite <- (firstn_skipn n s) at 1. f_equal.
  rewrite (all_newlines _ H4). now rewrite length_firstn, Nat.min_l.
Qed.

(** The compaction keeps the first line, and the non-empty lines after it. *)
Lemma compaction_lines m (repl : text) k :
  repl = repeat nl (S k) ->
  forall (s : text) skip prev,
    hd [] (split nl (sub_from ua [Newlines (S m)] repl skip prev s))
      = hd [] (split nl (skipn skip s)) /\
    List.filter nonempty
      (tl (split nl (sub_from ua [Newlines (S m)] repl skip prev s)))
      = List.filter nonempty (tl (split nl (skipn skip s))).
Proof.
  intros ->. induction s as [|c s IH]; intros skip prev.
  - destruct skip; split; reflexivity.
  - destruct skip as [|j]; [|apply IH]. cbn [sub_from skipn].
    assert (Hcopy :
      hd [] (split nl (c :: sub_from ua [Newlines (S m)] (repeat nl (S k)) 0
                              (Some c) s))
        = hd [] (split nl (c :: s)) /\
      List.filter nonempty
        (tl (split nl (c :: sub_from ua [Newlines (S m)] (repeat nl (S k)) 0
                              (Some c) s)))
        = List.filter nonempty (tl (split nl (c :: s)))).
    { destruct (IH O (Some c)) as [Hh Ht]. rewrite (drop_0 s) in Hh, Ht.
      cbn [split].
      pose proof (split_not_nil nl s) as N1.
      pose proof (split_not_nil nl
        (sub_from ua [Newlines (S m)] (repeat nl (S k)) 0 (Some c) s)) as N2.
      destruct (split nl s) as [|l ls]; [congruence|].
      destruct (split nl _) as [|l' ls'] in Hh, Ht, N2 |- *; [congruence|].
      simpl in Hh, Ht. subst l'.
      destruct (c =? nl); simpl; [|now rewrite Ht].
      split; [reflexivity|]. now rewrite Ht. }
    destruct (match_here ua [Newlines (S m)] prev (c :: s)) as [[|n]|] eqn:M;
      [exact Hcopy| |exact Hcopy].
    apply newlines_match in M. destruct M as [_ E].
    change (skipn (S n) (c :: s)) with (skipn n s) in E.
    destruct (IH n (Some c)) as [Hh Ht].
    rewrite E. rewrite !split_newlines.
    cbn [repeat app hd tl]. split; [reflexivity|].
    rewrite !filter_nonempty_blank.
    pose proof (split_not_nil nl (skipn n s)) as N1.
    pose proof (split_not_nil nl
      (sub_from ua [Newlines (S m)] (repeat nl (S k)) n (Some c) s)) as N2.
    destruct (split nl (skipn n s)) as [|l ls]; [congruence|].
    destruct (split nl _) as [|l' ls'] in Hh, Ht, N2 |- *; [congruence|].
    simpl in Hh, Ht. subst l'. simpl. now rewrite Ht.
Qed.

Lemma compaction_logical_lines (s : text) :
  logical_lines (split nl (re_sub ua [Newlines 3] [nl; nl] s))
    = logical_lines (split nl s).
Proof.
  destruct (compaction_lines 2 [nl; nl] 1 eq_refl s O None) as [Hh Ht].
  rewrite (drop_0 s) in Hh, Ht.
  change (sub_from ua [Newlines 3] (repeat nl 2) 0 None s)
    with (re_sub ua [Newlines 3] [nl; nl] s) in Hh, Ht.
  pose proof (split_not_nil nl s) as N1.
  pose proof (split_not_nil nl (re_sub ua [Newlines 3] [nl; nl] s)) as N2.
  destruct (split nl s) as [|l ls]; [congruence|].
  destruct (split nl _) as [|l' ls'] in Hh, Ht, N2 |- *; [congruence|].
  simpl in Hh, Ht. subst l'.
  rewrite (logical_lines_cons l ls'), (logical_lines_cons l ls).
  rewrite <- (logical_lines_filter ls'), Ht, logical_lines_filter.
  reflexivity.
Qed.

End Compaction.

Section CompactionProperty.
Variable ua : char -> bool.

(** X8: the compaction of blank lines has no effect on the result.  It
    leaves the first line and the non-empty lines of any text as they are, so
    the indentation loop ends in the same state with it as without it, and
    the formatted lines are those of the text the table leaves. *)
Theorem compaction_redundant (s c : text) :
  indent_loop (split nl (re_sub ua [Newlines 3] [nl; nl] s))
    = indent_loop (split nl s) /\
  format_lines ua c
    = fst (indent_loop
             (split nl (apply_replacements ua replacements (replace nl sp c)))).
Proof.
  split.
  - now rewrite !indent_loop_emit, compaction_logical_lines.
  - unfold format_lines.
    now rewrite !indent_loop_emit, compaction_logical_lines.
Qed.

End CompactionProperty.

(** ** Line breaks after braces and semicolons *)

Lemma startswith_nl (s : text) :
  startswith nl s = true -> exists s', s = nl :: s'.
Proof.
  destruct s as [|x s]; [discriminate|]. simpl. intros H.
  apply N.eqb_eq in H. subst. now eexists.
Qed.

Lemma ends_line_app b (a x : text) :
  ends_line b a = true -> ends_line b x = true -> ends_line b (a ++ x) = true.
Proof.
  intros Ha Hx. induction a as [|y a IH]; [exact Hx|].
  cbn [ends_line app] in *. apply andb_true_iff in Ha. destruct Ha as [H1 H2].
  rewrite (IH H2), andb_true_r. apply orb_true_iff in H1.
  destruct H1 as [H1|H1]; [now rewrite H1|].
  apply startswith_nl in H1. destruct H1 as (a' & ->). simpl.
  apply orb_true_r.
Qed.

Lemma ends_line_skipn b n (s : text) :
  ends_line b s = true -> ends_line b (skipn n s) = true.
Proof.
  revert s. induction n as [|n IH]; intros s H; [exact H|].
  destruct s as [|x s]; [exact H|]. simpl in H.
  apply andb_true_iff in H. apply IH, H.
Qed.

Lemma last_only_nil b : last_only b [].
Proof. intros a rest E. now destruct a. Qed.

Lemma ends_line_split b (s : text) :
  ends_line b s = true -> Forall (last_only b) (split nl s).
Proof.
  induction s as [|c s IH]; intros H.
  - repeat constructor. apply last_only_nil.
  - cbn [ends_line] in H. apply andb_true_iff in H. destruct H as [H1 H2].
    specialize (IH H2). cbn [split].
    destruct (c =? nl) eqn:Ec; [constructor; [apply last_only_nil|exact IH]|].
    pose proof (split_not_nil nl s) as Hne.
    destruct (split nl s) as [|l ls] eqn:Es; [congruence|].
    inversion IH as [|? ? Hl Hls]; subst. constructor; [|exact Hls].
    intros a rest E. destruct a as [|y a].
    + injection E as -> ->. rewrite N.eqb_refl in H1. simpl in H1.
      apply startswith_nl in H1. destruct H1 as (s' & ->).
      simpl in Es. now injection Es as <- _.
    + injection E as _ E. now apply (Hl a rest).
Qed.

Lemma last_only_strip b (l : text) : last_only b l -> last_only b (strip l).
Proof.
  intros H a rest E. destruct (strip_decomp l) as (w1 & w2 & El & _).
  rewrite E in El. rewrite <- !app_assoc in El. cbn [app] in El.
  rewrite app_assoc in El. apply H in El. now apply app_eq_nil in El.
Qed.

Lemma last_only_indent b (ind l : text) :
  ~ In b ind -> last_only b l -> last_only b (ind ++ l).
Proof.
  intros Hi Hl a rest E. apply app_eq_app in E.
  destruct E as (m & [[-> E]|[-> E]]).
  - destruct m as [|y m].
    + simpl in E. now apply (Hl [] rest).
    + injection E as <- _. exfalso. apply Hi, in_or_app. right. now left.
  - now apply (Hl m rest).
Qed.

Lemma str_mul_spaces d x : In x (str_mul (str "    ") d) -> x = sp.
Proof.
  unfold str_mul. induction (Z.to_nat d) as [|n IH]; simpl; [tauto|].
  intros [H|[H|[H|[H|H]]]]; auto.
Qed.

Lemma emit_last_only b d (ls : list text) :
  b <> sp -> Forall (last_only b) ls -> Forall (last_only b) (emit d ls).
Proof.
  intros Hb H. revert d. induction H as [|l ls Hl _ IH]; intros d; simpl.
  - constructor.
  - constructor; [|apply IH]. apply last_only_indent; [|exact Hl].
    intros Hin. apply str_mul_spaces in Hin. congruence.
Qed.

Lemma logical_lines_last_only b (lines : list text) :
  Forall (last_only b) lines -> Forall (last_only b) (logical_lines lines).
Proof.
  induction 1 as [|line lines H _ IH]; [constructor|].
  rewrite logical_lines_cons. destruct (strip line) eqn:E; [exact IH|].
  constructor; [|exact IH]. rewrite <- E. now apply last_only_strip.
Qed.

Section LineBreaks.
Variable ua : char -> bool.

Lemma keeps_break_spec r (repl : text) prev (s : text) n :
  keeps_break r repl = true ->
  match_here ua r prev s = Some n ->
  startswith nl s = true -> startswith nl repl = true.
Proof.
  unfold keeps_break. intros K M Hs.
  destruct (startswith nl repl); [reflexivity|]. simpl in K. exfalso.
  apply startswith_nl in Hs. destruct Hs as (s' & ->).
  assert (Hlit : forall x (l : text) r' p,
            negb (x =? nl) = true ->
            match_here ua (Lit (x :: l) :: r') p (nl :: s') <> Some n).
  { intros x l r' p Hx. cbn [match_here strip_prefix].
    destruct (x =? nl); [discriminate|discriminate]. }
  destruct r as [|[l| | | |] r]; try discriminate.
  - destruct l as [|x l]; [discriminate|]. now apply (Hlit x l r prev).
  - destruct r as [|[l| | | |] r]; try discriminate.
    destruct l as [|x l]; [discriminate|].
    cbn [match_here] in M.
    destruct (at_boundary ua prev (head (nl :: s'))); [|discriminate].
    now apply (Hlit x l r prev).
Qed.

Lemma sub_from_starts_nl r (repl : text) prev (s : text) :
  keeps_break r repl = true ->
  startswith nl s = true ->
  startswith nl (sub_from ua r repl 0 prev s) = true.
Proof.
  intros K Hs. destruct s as [|c s]; [discriminate|]. cbn [sub_from].
  destruct (match_here ua r prev (c :: s)) as [[|n]|] eqn:M; try exact Hs.
  pose proof (keeps_break_spec _ _ _ _ _ K M Hs) as Hr.
  apply startswith_nl in Hr. destruct Hr as (r' & ->). reflexivity.
Qed.

(** A rule that keeps the breaks keeps every [b] followed by a newline. *)
Lemma sub_from_ends_line b r (repl : text) :
  keeps_break r repl = true -> ends_line b repl = true ->
  forall (s : text) skip prev,
    ends_line b (skipn skip s) = true ->
    ends_line b (sub_from ua r repl skip prev s) = true.
Proof.
  intros K Hr. induction s as [|c s IH]; intros skip prev H.
  - now destruct skip.
  - destruct skip as [|k]; [|now apply IH]. rewrite (drop_0 (c :: s)) in H.
    cbn [sub_from].
    assert (Hcopy :
      ends_line b (c :: sub_from ua r repl 0 (Some c) s) = true).
    { cbn [ends_line] in *. apply andb_true_iff in H. destruct H as [H1 H2].
      rewrite (IH O (Some c)) by now rewrite (drop_0 s).
      rewrite andb_true_r. apply orb_true_iff in H1.
      destruct H1 as [H1|H1]; [now rewrite H1|].
      rewrite (sub_from_starts_nl _ _ _ _ K H1). apply orb_true_r. }
    destruct (match_here ua r prev (c :: s)) as [[|n]|] eqn:M;
      [exact Hcopy| |exact Hcopy].
    apply ends_line_app; [exact Hr|]. apply IH.
    change (skipn n s) with (skipn (S n) (c :: s)).
    now apply ends_line_skipn.
Qed.

(** The rule of [b] itself puts a newline after every [b]. *)
Lemma sub_from_lit_ends_line b (repl : text) :
  ends_line b repl = true ->
  forall (s : text) skip prev,
    ends_line b (sub_from ua [Lit [b]] repl skip prev s) = true.
Proof.
  intros Hr. induction s as [|c s IH]; intros skip prev.
  - now destruct skip.
  - destruct skip as [|k]; [|apply IH]. cbn [sub_from match_here strip_prefix].
    destruct (b =? c) eqn:E; cbn [option_map List.length Nat.add].
    + apply ends_line_app; [exact Hr|apply IH].
    + cbn [ends_line]. rewrite IH, andb_true_r.
      rewrite N.eqb_sym, E. reflexivity.
Qed.

Lemma apply_replacements_app rules1 rules2 (s : text) :
  apply_replacements ua (rules1 ++ rules2) s
    = apply_replacements ua rules2 (apply_replacements ua rules1 s).
Proof. unfold apply_replacements. apply fold_left_app. Qed.

Lemma apply_replacements_ends_line b rules (s : text) :
  forallb (rule_keeps b) rules = true ->
  ends_line b s = true -> ends_line b (apply_replacements ua rules s) = true.
Proof.
  revert s. induction rules as [|pr rules IH]; intros s Hk H; [exact H|].
  cbn [forallb] in Hk. apply andb_true_iff in Hk. destruct Hk as [Hp Hk].
  unfold rule_keeps in Hp. apply andb_true_iff in Hp. destruct Hp as [K R].
  change (apply_replacements ua (pr :: rules) s)
    with (apply_replacements ua rules (re_sub ua (fst pr) (snd pr) s)).
  apply IH; [exact Hk|]. unfold re_sub.
  apply sub_from_ends_line; [exact K|exact R|now rewrite drop_0].
Qed.

(** A table that has the rule of [b], followed by rules that keep the
    breaks, leaves every [b] followed by a newline. *)
Lemma rules_establish b i (repl : text) rules (s : text) :
  nth_error rules i = Some ([Lit [b]], repl) ->
  ends_line b repl = true ->
  forallb (rule_keeps b) (skipn (S i) rules) = true ->
  ends_line b (apply_replacements ua rules s) = true.
Proof.
  intros Hn Hr Hk.
  destruct (nth_error_split rules i Hn) as (pre & post & E & L).
  assert (Ep : skipn (S i) rules = post).
  { rewrite E, <- L.
    change (pre ++ ([Lit [b]], repl) :: post)
      with (pre ++ [([Lit [b]], repl)] ++ post)%list.
    rewrite app_assoc.
    replace (S (List.length pre))
      with (List.length (pre ++ [([Lit [b]], repl)]))
      by (rewrite List.length_app; simpl; lia).
    apply drop_app_length. }
  rewrite Ep in Hk. rewrite E.
  change (pre ++ ([Lit [b]], repl) :: post)
    with (pre ++ [([Lit [b]], repl)] ++ post)%list.
  rewrite !apply_replacements_app.
  apply apply_replacements_ends_line; [exact Hk|].
  apply (sub_from_lit_ends_line b repl Hr).
Qed.

(** After the table and the compaction, each of the three characters is
    followed by a newline wherever it occurs. *)
Lemma content_ends_lines b (s : text) :
  structural b = true ->
  ends_line b
    (re_sub ua [Newlines 3] [nl; nl] (apply_replacements ua replacements s))
    = true.
Proof.
  intros Hb. unfold re_sub.
  assert (Hc : b = lbrace \/ b = rbrace \/ b = semi).
  { unfold structural in Hb. apply orb_true_iff in Hb.
    destruct Hb as [Hb|Hb]; [apply orb_true_iff in Hb; destruct Hb as [Hb|Hb]|];
      apply N.eqb_eq in Hb; tauto. }
  apply sub_from_ends_line;
    [reflexivity|destruct Hc as [-> | [-> | ->]]; reflexivity|].
  rewrite drop_0.
  destruct Hc as [-> | [-> | ->]].
  - now apply (rules_establish lbrace 8 (str " {" ++ [nl])).
  - now apply (rules_establish rbrace 9 (nl :: str "}" ++ [nl])).
  - now apply (rules_establish semi 10 (str ";" ++ [nl])).
Qed.

End LineBreaks.

Section ScriptFailure.
Variable ua : char -> bool.


End ScriptFailure.

Section LineShape.
Variable ua : char -> bool.

(** X9: in every formatted line, an opening brace, a closing brace or a
    semicolon occurs as the last character only; a line holds at most one of
    them. *)
Theorem structural_characters_end_lines (c : text) :
  Forall (fun l : text =>
            forall a x rest,
              l = a ++ x :: rest -> structural x = true -> rest = [])
    (format_lines ua c).
Proof.
  apply List.Forall_forall. intros l Hl a x rest E Hx.
  assert (H : Forall (last_only x) (format_lines ua c)).
  { unfold format_lines. rewrite indent_loop_emit. cbn [fst].
    apply emit_last_only.
    - intros ->. discriminate Hx.
    - apply logical_lines_last_only, ends_line_split.
      now apply content_ends_lines. }
  exact (proj1 (List.Forall_forall _ _) H l Hl a rest E).
Qed.

(** X11: a second call on a file the function has written with at most 5
    lines rewrites it again, from the formatted lines joined by newlines. *)
Theorem second_call_rewrites (c : text) :
  (List.length (format_lines ua c) <= 5)%nat ->
  reformat ua (format_content ua c)
    = (format_content ua (join nl (format_lines ua c)), true).
Proof.
  intros H. unfold reformat. rewrite strip_format_content.
  assert (A : already_formatted (join nl (format_lines ua c)) = false);
    [|now rewrite A].
  apply not_true_is_false. rewrite already_formatted_lines.
  pose proof (format_lines_shape ua c) as Hs.
  destruct (format_lines ua c) as [|l ls] eqn:E; [simpl; lia|].
  rewrite split_join; [lia|discriminate|].
  eapply List.Forall_impl; [|exact Hs]. simpl. tauto.
Qed.

End LineShape.

Lemma second_call_rewrites_witness :
  (List.length (format_lines ascii_table (str "class A{}")) <= 5)%nat /\
  format_content ascii_table (str "class A{}")
    = str "class A {" ++ [nl] ++ str "}" ++ [nl] /\
  reformat ascii_table (format_content ascii_table (str "class A{}"))
    = (str "class A  {" ++ [nl] ++ str "}" ++ [nl], true).
Proof.
  assert (H : (List.length (format_lines ascii_table (str "class A{}")) <= 5)%nat)
    by (vm_compute; lia).
  split; [exact H|]. split; [reflexivity|].
  rewrite (second_call_rewrites ascii_table _ H). reflexivity.
Defined.

(** ** The characters of the output *)

Lemma split_in sep (s l : text) x :
  In l (split sep s) -> In x l -> In x s.
Proof.
  revert l. induction s as [|c s IH]; intros l Hl Hx.
  - destruct Hl as [<- | []]. exact Hx.
  - cbn [split] in Hl. destruct (c =? sep).
    + destruct Hl as [<- | Hl]; [destruct Hx|]. right. now apply (IH l).
    + pose proof (split_not_nil sep s) as Hne.
      destruct (split sep s) as [|l0 ls]; [congruence|].
      destruct Hl as [<- | Hl].
      * destruct Hx as [<- | Hx]; [now left|]. right. apply (IH l0); [now left|exact Hx].
      * right. apply (IH l); [now right|exact Hx].
Qed.

Lemma join_in sep (ls : list text) x :
  In x (join sep ls) -> x = sep \/ exists l, In l ls /\ In x l.
Proof.
  induction ls as [|l ls IH]; [intros []|].
  destruct ls as [|l' ls'].
  - intros H. right. exists l. split; [now left|exact H].
  - rewrite join_cons by discriminate. intros H. apply in_app_or in H.
    destruct H as [H|[<- | H]].
    + right. exists l. split; [now left|exact H].
    + now left.
    + destruct (IH H) as [-> | (l0 & H0 & Hx)]; [now left|].
      right. exists l0. split; [now right|exact Hx].
Qed.

Lemma emit_in d (ls : list text) (l : text) x :
  In l (emit d ls) -> In x l -> x = sp \/ exists l0, In l0 ls /\ In x l0.
Proof.
  revert d. induction ls as [|l0 ls IH]; intros d; [intros []|].
  cbn [emit]. intros [<- | Hl] Hx.
  - apply in_app_or in Hx. destruct Hx as [Hx|Hx].
    + left. now apply str_mul_spaces in Hx.
    + right. exists l0. split; [now left|exact Hx].
  - destruct (IH _ Hl Hx) as [-> | (l1 & H1 & H2)]; [now left|].
    right. exists l1. split; [now right|exact H2].
Qed.

Lemma logical_lines_in (lines : list text) (l : text) x :
  In l (logical_lines lines) -> In x l ->
  exists line, In line lines /\ In x line.
Proof.
  unfold logical_lines. intros Hl Hx.
  apply List.filter_In in Hl. destruct Hl as [Hl _].
  apply List.in_map_iff in Hl. destruct Hl as (line & <- & Hline).
  exists line. split; [exact Hline|]. now apply in_strip.
Qed.

Lemma replace_in a b (s : text) x : In x (replace a b s) -> x = b \/ In x s.
Proof.
  unfold replace. intros H. apply List.in_map_iff in H.
  destruct H as (c & E & Hc). destruct (c =? a); [now left|].
  subst. now right.
Qed.

Lemma in_nonws (s : text) x : In x (nonws s) <-> In x s /\ isspace x = false.
Proof.
  unfold nonws. rewrite List.filter_In. split; intros [H1 H2]; split; auto.
  - now apply negb_true_iff.
  - now apply negb_true_iff.
Qed.

Section Alphabet.
Variable ua : char -> bool.

Lemma sub_from_in r (repl : text) x :
  forall (s : text) skip prev,
    In x (sub_from ua r repl skip prev s) -> In x repl \/ In x s.
Proof.
  induction s as [|c s IH]; intros skip prev.
  - destruct skip; intros [].
  - destruct skip as [|k]; cbn [sub_from].
    + assert (Hcopy : In x (c :: sub_from ua r repl 0 (Some c) s) ->
                      In x repl \/ In x (c :: s)).
      { intros [<- | H]; [right; now left|].
        destruct (IH _ _ H); [now left|right; now right]. }
      destruct (match_here ua r prev (c :: s)) as [[|n]|];
        [exact Hcopy| |exact Hcopy].
      intros H. apply in_app_or in H. destruct H as [H|H]; [now left|].
      destruct (IH _ _ H); [now left|right; now right].
    + intros H. destruct (IH _ _ H); [now left|right; now right].
Qed.

Lemma apply_replacements_in rules (s : text) x :
  In x (apply_replacements ua rules s) ->
  In x s \/ Exists (fun pr => In x (snd pr)) rules.
Proof.
  revert s. induction rules as [|pr rules IH]; intros s; [now left|].
  change (apply_replacements ua (pr :: rules) s)
    with (apply_replacements ua rules (re_sub ua (fst pr) (snd pr) s)).
  intros H. destruct (IH _ H) as [H1|H1].
  - unfold re_sub in H1. apply sub_from_in in H1.
    destruct H1 as [H1|H1]; [right; now left|now left].
  - right. now right.
Qed.

(** The whitespace of the replacements is spaces and newlines. *)
Lemma replacements_whitespace x :
  Exists (fun pr : regex * text => In x (snd pr)) replacements ->
  isspace x = true -> x = sp \/ x = nl.
Proof.
  intros H Hx. apply List.Exists_exists in H. destruct H as (pr & Hpr & Hin).
  assert (F : Forall (fun pr : regex * text =>
                        Forall (fun y => isspace y = true -> y = sp \/ y = nl)
                          (snd pr)) replacements).
  { unfold replacements.
    repeat (apply List.Forall_cons;
            [repeat (apply List.Forall_cons;
                     [first [now left|now right|discriminate]|]);
             apply List.Forall_nil|]).
    apply List.Forall_nil. }
  pose proof (proj1 (List.Forall_forall _ _) F pr Hpr) as Fp.
  exact (proj1 (List.Forall_forall _ _) Fp x Hin Hx).
Qed.

Lemma format_content_alphabet (c : text) x :
  In x (format_content ua c) -> In x c \/ x = sp \/ x = nl.
Proof.
  intros H. destruct (isspace x) eqn:Hx.
  - unfold format_content in H. apply in_app_or in H.
    destruct H as [H|[<- | []]]; [|tauto].
    apply join_in in H. destruct H as [-> | (l & Hl & Hin)]; [tauto|].
    unfold format_lines in Hl. rewrite indent_loop_emit in Hl. cbn [fst] in Hl.
    destruct (emit_in _ _ _ _ Hl Hin) as [-> | (l0 & Hl0 & Hin0)]; [tauto|].
    destruct (logical_lines_in _ _ _ Hl0 Hin0) as (line & Hline & Hin1).
    pose proof (split_in _ _ _ _ Hline Hin1) as Hs.
    unfold re_sub in Hs. apply sub_from_in in Hs.
    destruct Hs as [[<- | [<- | []]]|Hs]; [tauto|tauto|].
    apply apply_replacements_in in Hs. destruct Hs as [Hs|Hs].
    + apply replace_in in Hs. tauto.
    + right. exact (replacements_whitespace x Hs Hx).
  - left. assert (Hn : In x (nonws (format_content ua c)))
      by (apply in_nonws; split; [exact H|exact Hx]).
    rewrite format_content_nonws in Hn. apply in_nonws in Hn.
    exact (proj1 Hn).
Qed.

(** X12: the function brings in no character but the space and the newline:
    every character of the text it leaves is a character of the text it read,
    a space or a newline. *)
Theorem output_alphabet (t : text) x :
  In x (fst (reformat ua t)) -> In x t \/ x = sp \/ x = nl.
Proof.
  unfold reformat. destruct (already_formatted (strip t)); cbn [fst].
  - now left.
  - intros H. apply format_content_alphabet in H.
    destruct H as [H|H]; [|now right]. left. now apply in_strip.
Qed.

End Alphabet.

Lemma output_alphabet_witness :
  In nl (fst (reformat ascii_table (str "class A{}"))) /\
  (In nl (str "class A{}") \/ nl = sp \/ nl = nl).
Proof.
  assert (H : In nl (fst (reformat ascii_table (str "class A{}")))).
  { change (fst (reformat ascii_table (str "class A{}")))
      with (str "class A {" ++ [nl] ++ str "}" ++ [nl]).
    apply in_or_app. right. now left. }
  split; [exact H|].
  exact (output_alphabet ascii_table (str "class A{}") nl H).
Defined.

(** ** The depth of a line and the braces before it *)

Lemma endswith_cons b x (l : text) :
  l <> [] -> endswith b (x :: l) = endswith b l.
Proof.
  intros H. unfold endswith. cbn [rev].
  destruct (exists_last H) as (l' & y & ->).
  now rewrite rev_app_distr.
Qed.

Lemma last_only_tail b x (l : text) : last_only b (x :: l) -> last_only b l.
Proof. intros H a rest E. apply (H (x :: a) rest). now rewrite E. Qed.

Lemma last_only_head b (l : text) : last_only b (b :: l) -> l = [].
Proof. intros H. now apply (H [] l). Qed.

Lemma count_nil_notin b (s : text) : ~ In b s -> count b s = O.
Proof.
  induction s as [|x s IH]; [reflexivity|]. intros H. rewrite count_cons.
  destruct (N.eqb_spec b x) as [->|_]; [exfalso; apply H; now left|].
  apply IH. intros Hin. apply H. now right.
Qed.

Lemma count_app b (a s : text) : count b (a ++ s) = (count b a + count b s)%nat.
Proof. unfold count. now rewrite List.filter_app, List.length_app. Qed.

Lemma count_last_only b (l : text) :
  last_only b l -> count b l = if endswith b l then 1%nat else O.
Proof.
  induction l as [|x l IH]; intros H; [reflexivity|]. rewrite count_cons.
  destruct (N.eqb_spec b x) as [<-|Hx].
  - rewrite (last_only_head b l H). unfold endswith. simpl.
    now rewrite N.eqb_refl.
  - rewrite (IH (last_only_tail _ _ _ H)).
    destruct l as [|y l];
      [|now rewrite (endswith_cons b x (y :: l)) by discriminate].
    unfold endswith. simpl. destruct (N.eqb_spec x b); [congruence|reflexivity].
Qed.

Lemma brace_events_app (a s : text) :
  brace_events (a ++ s) = brace_events a ++ brace_events s.
Proof. unfold brace_events. apply flat_map_app. Qed.

Lemma brace_events_none (s : text) :
  ~ In lbrace s -> ~ In rbrace s -> brace_events s = [].
Proof.
  induction s as [|x s IH]; [reflexivity|]. intros H1 H2. cbn.
  destruct (N.eqb_spec x lbrace) as [->|_]; [exfalso; apply H1; now left|].
  destruct (N.eqb_spec x rbrace) as [->|_]; [exfalso; apply H2; now left|].
  apply IH; intros Hin; [apply H1|apply H2]; now right.
Qed.

(** A line with its braces at its end only has at most one, the last
    character. *)
Lemma brace_events_last_only (l : text) :
  last_only lbrace l -> last_only rbrace l ->
  brace_events l = (if endswith rbrace l then [Closes] else [])
                   ++ (if endswith lbrace l then [Opens] else []).
Proof.
  induction l as [|x l IH]; intros H1 H2; [reflexivity|].
  destruct (N.eqb_spec x lbrace) as [->|N1].
  { now rewrite (last_only_head _ _ H1). }
  destruct (N.eqb_spec x rbrace) as [->|N2].
  { now rewrite (last_only_head _ _ H2). }
  change (brace_events (x :: l))
    with ((if x =? lbrace then [Opens]
           else if x =? rbrace then [Closes] else []) ++ brace_events l).
  destruct (N.eqb_spec x lbrace); [congruence|].
  destruct (N.eqb_spec x rbrace); [congruence|]. cbn [app].
  rewrite (IH (last_only_tail _ _ _ H1) (last_only_tail _ _ _ H2)).
  destruct l as [|y l];
    [|now rewrite (endswith_cons rbrace x (y :: l)),
                  (endswith_cons lbrace x (y :: l)) by discriminate].
  unfold endswith. simpl.
  destruct (N.eqb_spec x rbrace); [congruence|].
  destruct (N.eqb_spec x lbrace); [congruence|reflexivity].
Qed.

Lemma shaped_head (l : text) :
  shaped l -> exists c r, l = c :: r /\ isspace c = false.
Proof.
  intros (Hne & [Hh _] & _). destruct l as [|c r]; [congruence|].
  exists c, r. split; [reflexivity|]. now apply (Hh c r).
Qed.

Lemma lstrip_indent d (l : text) :
  shaped l -> lstrip (str_mul (str "    ") d ++ l) = l.
Proof.
  intros H. rewrite lstrip_app_ws by apply str_mul_all_space.
  destruct (shaped_head l H) as (c & r & -> & Hc).
  now apply lstrip_nonws_head.
Qed.

Lemma strip_indent d (l : text) :
  shaped l -> strip (str_mul (str "    ") d ++ l) = l.
Proof.
  intros H.
  rewrite <- (app_nil_r l) at 1.
  rewrite strip_pad; [|apply str_mul_all_space|constructor].
  apply strip_trimmed, H.
Qed.

Lemma str_mul_no_brace d b : b <> sp -> ~ In b (str_mul (str "    ") d).
Proof. intros H Hin. apply str_mul_spaces in Hin. congruence. Qed.

(** On a written line, the braces that move the depth are those the loop
    tests for. *)
Lemma counted_braces_line d (l : text) :
  shaped l -> counted_braces (str_mul (str "    ") d ++ l) = line_events l.
Proof.
  intros H. unfold counted_braces, line_events.
  rewrite lstrip_indent by exact H. f_equal.
  rewrite count_app, count_nil_notin by (apply str_mul_no_brace; discriminate).
  destruct H as (_ & _ & H & _). rewrite (count_last_only _ _ H).
  now destruct (endswith lbrace l).
Qed.

(** So are all its braces, unless a closing brace follows other text. *)
Lemma brace_events_line d (l : text) :
  shaped l ->
  (In rbrace l -> startswith rbrace l = true) ->
  brace_events (str_mul (str "    ") d ++ l) = line_events l.
Proof.
  intros H Hr. rewrite brace_events_app, brace_events_none
    by (apply str_mul_no_brace; discriminate).
  destruct H as (_ & _ & H1 & H2). cbn [app].
  rewrite (brace_events_last_only l H1 H2). unfold line_events. f_equal.
  destruct (startswith rbrace l) eqn:S1.
  - destruct l as [|x r]; [discriminate|]. simpl in S1.
    apply N.eqb_eq in S1. subst x. rewrite (last_only_head _ _ H2).
    reflexivity.
  - destruct (endswith rbrace l) eqn:E1; [|reflexivity].
    assert (Hin : In rbrace l).
    { unfold endswith in E1.
      destruct (rev l) as [|y t] eqn:R; [discriminate E1|].
      apply N.eqb_eq in E1. subst y. apply in_rev. rewrite R. now left. }
    discriminate (Hr Hin).
Qed.

Lemma emit_counted d (ls : list text) :
  Forall shaped ls -> flat_map counted_braces (emit d ls) = flat_map line_events ls.
Proof.
  intros H. revert d. induction H as [|l ls Hl _ IH]; intros d; [reflexivity|].
  cbn [emit flat_map]. now rewrite IH, counted_braces_line.
Qed.

Lemma emit_brace_events d (ls : list text) :
  Forall shaped ls ->
  Forall (fun o => In rbrace o -> startswith rbrace (lstrip o) = true)
    (emit d ls) ->
  brace_events (concat (emit d ls)) = flat_map line_events ls.
Proof.
  intros H. revert d. induction H as [|l ls Hl _ IH]; intros d F;
    [reflexivity|].
  cbn [emit] in F. inversion F as [|? ? Fo Fs]; subst.
  cbn [emit concat flat_map]. rewrite brace_events_app, (IH _ Fs). f_equal.
  apply brace_events_line; [exact Hl|]. intros Hin.
  rewrite <- (lstrip_indent (emit_depth d l) l Hl). apply Fo.
  apply in_or_app. now right.
Qed.

Lemma emit_split d (ls before : list text) (out : text) (after : list text) :
  emit d ls = before ++ out :: after ->
  exists lb l la,
    ls = lb ++ l :: la /\ before = emit d lb /\
    out = str_mul (str "    ") (emit_depth (final_depth d lb) l) ++ l.
Proof.
  revert d ls. induction before as [|b before IH]; intros d ls E.
  - destruct ls as [|l la]; [discriminate|]. cbn [emit app] in E.
    injection E as <- _. now exists [], l, la.
  - destruct ls as [|l0 ls]; [discriminate|]. cbn [emit app] in E.
    injection E as <- E. destruct (IH _ _ E) as (lb & l & la & -> & -> & ->).
    now exists (l0 :: lb), l, la.
Qed.

Section Depth.
Variable ua : char -> bool.

(** The logical lines of the rewritten text are shaped. *)
Lemma format_lines_shaped (c : text) :
  exists ls : list text,
    Forall shaped ls /\ format_lines ua c = emit 0 ls.
Proof.
  unfold format_lines. rewrite indent_loop_emit. cbn [fst].
  eexists. split; [|reflexivity].
  set (s := re_sub ua [Newlines 3] [nl; nl] _).
  assert (H1 : Forall (last_only lbrace) (logical_lines (split nl s)))
    by (apply logical_lines_last_only, ends_line_split;
        now apply content_ends_lines).
  assert (H2 : Forall (last_only rbrace) (logical_lines (split nl s)))
    by (apply logical_lines_last_only, ends_line_split;
        now apply content_ends_lines).
  pose proof (logical_lines_trimmed (split nl s)) as H3.
  pose proof (logical_lines_nonempty (split nl s)) as H4.
  rewrite List.Forall_forall in *. intros l Hl. repeat split; auto.
  - now apply (H3 l Hl).
  - now apply (H3 l Hl).
Qed.

End Depth.

Section DepthClaim.
Variable ua : char -> bool.

(** C5 (amended): the depth of a written line and the braces before it.  For
    any line [out] of the formatted lines, after the lines [before]: its text
    [l] is not empty; the depth [d] the loop reaches it with is the clamped
    running (opens - closes) count over the preceding lines of every opening
    brace and of every closing brace that starts its line; it is 0 at the
    first line and never negative (in closed form: the plain difference,
    raised by the lowest value the plain running difference took).  A line
    starting with [}] is written one level lower, with floor 0, any other line
    at [d]; a line ending with [{] leaves the count one higher than it was
    written at.  When every closing brace of the preceding lines starts its
    line, [d] is the clamped running count of all the braces of the preceding
    text. *)
Theorem indentation_depth_invariant
  (c : text) (before : list text) (out : text) (after : list text) :
  format_lines ua c = before ++ out :: after ->
  let l := strip out in
  let counted := flat_map counted_braces before in
  let d := clamped_count counted in
  let d' := if startswith rbrace l then Z.max 0 (d - 1) else d in
  l <> [] /\
  (before = [] -> d = 0%Z) /\
  (0 <= d)%Z /\ (0 <= d')%Z /\
  d = (net counted - lowest counted)%Z /\
  out = str_mul (str "    ") d' ++ l /\
  clamped_count (flat_map counted_braces (before ++ [out]))
    = (if endswith lbrace l then (d' + 1)%Z else d') /\
  (Forall (fun o => In rbrace o -> startswith rbrace (lstrip o) = true) before ->
   d = clamped_count (brace_events (concat before))).
Proof.
  intros E l counted d d'.
  destruct (format_lines_shaped ua c) as (ls & Hs & Els).
  rewrite Els in E.
  destruct (emit_split _ _ _ _ _ E) as (lb & x & la & -> & Eb & Eo).
  apply List.Forall_app in Hs. destruct Hs as [Hb Hx].
  inversion Hx as [|? ? Hx1 _]; subst x0 l0.
  assert (El : l = x) by (subst l; rewrite Eo; now apply strip_indent).
  assert (Ec : counted = flat_map line_events lb)
    by (subst counted; rewrite Eb; now apply emit_counted).
  assert (Ed : d = final_depth 0 lb)
    by (subst d; rewrite Ec; now rewrite final_depth_events).
  assert (H0 : (0 <= d)%Z)
    by (subst d; unfold clamped_count; now apply clamp_fold_nonneg).
  split; [rewrite El; apply Hx1|].
  split; [intros ->; reflexivity|].
  split; [exact H0|].
  split; [subst d'; destruct (startswith rbrace l); lia|].
  split; [apply clamped_count_closed|].
  split; [subst d'; rewrite El, Ed; exact Eo|].
  split.
  - assert (Eb1 : before ++ [out] = emit 0 (lb ++ [x]))
      by (rewrite emit_app, <- Eb; cbn [emit]; now rewrite <- Eo).
    rewrite Eb1, emit_counted
      by (apply List.Forall_app; split; [exact Hb|now constructor]).
    unfold clamped_count. rewrite <- final_depth_events.
    unfold final_depth. rewrite fold_left_app. cbn [fold_left].
    fold (final_depth 0 lb). rewrite <- Ed. subst d'. rewrite El.
    reflexivity.
  - intros F. subst d. rewrite Ec. f_equal. symmetry. rewrite Eb.
    apply emit_brace_events; [exact Hb|now rewrite <- Eb].
Qed.

End DepthClaim.

(** C5, the claim as stated fails: in [a {], [static }], [b;] the line [b;]
    follows one opening and one closing brace, whose clamped running count
    is 0, and is written at depth 1. *)
Lemma closing_brace_after_keyword_not_counted :
  format_lines ascii_table brace_after_keyword
    = [str "a {"; str "    static }"] ++ str "    b;" :: [] /\
  startswith rbrace (strip (str "    b;")) = false /\
  clamped_count (brace_events (concat [str "a {"; str "    static }"])) = 0%Z /\
  str "    b;" = str_mul (str "    ") 1 ++ strip (str "    b;") /\
  str "    b;" <> str_mul (str "    ") 0 ++ strip (str "    b;").
Proof. repeat split; try reflexivity. discriminate. Qed.

Lemma indentation_depth_invariant_witness :
  format_lines ascii_table scenario_class
    = [str "class Foo {"; str "    private int x;"; str "    public Foo() {"]
      ++ str "        x=0;" :: [str "    }"; str "}"] /\
  str "        x=0;" = str_mul (str "    ") 2 ++ str "x=0;" /\
  clamped_count
    (brace_events
       (concat [str "class Foo {"; str "    private int x;";
                str "    public Foo() {"])) = 2%Z.
Proof.
  assert (E : format_lines ascii_table scenario_class
    = [str "class Foo {"; str "    private int x;"; str "    public Foo() {"]
      ++ str "        x=0;" :: [str "    }"; str "}"]) by reflexivity.
  split; [exact E|].
  destruct (indentation_depth_invariant ascii_table _ _ _ _ E)
    as (_ & _ & _ & _ & _ & Eo & _ & Eb).
  split; [exact Eo|]. rewrite <- Eb; [reflexivity|].
  repeat (apply List.Forall_cons;
          [intros Hin; vm_compute in Hin; exfalso;
           repeat (destruct Hin as [Hin|Hin]; [discriminate Hin|]);
           exact Hin|]).
  apply List.Forall_nil.
Defined.
